(** * mastogon: the in-memory ActivityPub database ([internal/db/db.go])

    A shallow embedding of the [DB] type of [internal/db] and of its methods,
    and the properties of the specification that concern them.

    - [sync.Map] is a finite map with string keys ([gmap string _]); its
      methods [Load], [Store] and [LoadOrStore] are atomic, so each is one
      function on the map.
    - [sync.Mutex] values live in a heap of booleans ([true] is locked); a
      [*sync.Mutex] is an index into that heap.
    - A method of [*DB] is a computation over the memory it shares with every
      other caller: [M A := Mem -> outcome A].  Besides returning, a Go call
      may die with a runtime error, park forever on a mutex, or never come
      back from a recursion; [outcome] has one constructor for each. *)

From Stdlib Require Import String Ascii List Arith Lia Bool.
From stdpp Require Import base option list strings gmap.

Local Open Scope string_scope.
Local Open Scope list_scope.

(** ** [net/url] *)

(** The fields of [url.URL] that the database reads. *)
Record URL : Type := mkURL {
  Scheme : string;
  Host : string;
  Path : string
}.

(** The first segment of a path has a colon in it. *)
Fixpoint colon_in_first_segment (p : string) : bool :=
  match p with
  | EmptyString => false
  | String c p' =>
      if Ascii.eqb c "/" then false
      else if Ascii.eqb c ":" then true
      else colon_in_first_segment p'
  end.

(** [URL.String] for a URL with no opaque part, user info, query or
    fragment and whose host and path need no escaping: the scheme and a
    colon, two slashes and the host, the path; a slash is put before a
    path that does not start with one when there is a host, and [./]
    before a bare path whose first segment has a colon. *)
Definition URL_String (u : URL) : string :=
  let s1 := if String.eqb (Scheme u) "" then "" else Scheme u +:+ ":" in
  let s2 :=
    if negb (String.eqb (Scheme u) "") || negb (String.eqb (Host u) "") then
      (if negb (String.eqb (Host u) "") || negb (String.eqb (Path u) "")
       then "//" else "") +:+ Host u
    else "" in
  let s3 :=
    match Path u with
    | String c _ =>
        if negb (Ascii.eqb c "/") && negb (String.eqb (Host u) "")
        then "/" else ""
    | EmptyString => ""
    end in
  let s4 :=
    if String.eqb (s1 +:+ s2 +:+ s3) "" && colon_in_first_segment (Path u)
    then "./" else "" in
  s1 +:+ s2 +:+ s3 +:+ s4 +:+ Path u.

(** ** Go errors *)

(** An [error] value is [nil] or carries a message. *)
Definition error : Type := option string.
Definition errors_New (msg : string) : error := Some msg.

(** A library call that returns [(T, error)] with exactly one side set. *)
Inductive result (A : Type) : Type :=
  | Ok (a : A)
  | Err (msg : string).
Arguments Ok {A} a.
Arguments Err {A} msg.

(** ** [go-fed/activity]: the vocabulary the database touches *)

(** [vocab.Type]: any ActivityStreams value.  The database reads the JSON-LD
    [id] of a value and, of an ordered collection, its [orderedItems]
    property; a property is [None] when it is not set.  An element of
    [orderedItems] holds an IRI, an embedded value, or neither.  A page
    carries the offset and the limit of the window it is a view of. *)
Inductive vocabType : Type :=
  | ASObject (typeName : string) (jsonldId : option URL)
  | ASOrderedCollection (jsonldId : option URL)
      (orderedItems : option (list item))
  | ASOrderedCollectionPage (jsonldId : option URL)
      (startIndex : nat) (limit : nat)
      (orderedItems : option (list item))
with item : Type :=
  | ItemIRI (iri : URL)
  | ItemType (t : vocabType)
  | ItemUnset.

Definition GetJSONLDId (t : vocabType) : option URL :=
  match t with
  | ASObject _ i => i
  | ASOrderedCollection i _ => i
  | ASOrderedCollectionPage i _ _ _ => i
  end.

(** [pub.GetId]: the [id] of a value, an error when it has none. *)
Definition pub_GetId (t : vocabType) : result URL :=
  match GetJSONLDId t with
  | Some u => Ok u
  | None => Err "cannot determine id of activitystreams value"
  end.

(** [pub.ToId]: the identifier a property element stands for. *)
Definition pub_ToId (i : item) : result URL :=
  match i with
  | ItemType t => pub_GetId t
  | ItemIRI u => Ok u
  | ItemUnset => Err "cannot determine id of activitystreams property"
  end.

(** ** [sync.Map] *)

Module SyncMap.
Section Ops.
Context {V : Type}.

Definition Load (key : string) (sm : gmap string V) : option V :=
  sm !! key.

Definition Store (key : string) (value : V) (sm : gmap string V)
  : gmap string V :=
  <[key := value]> sm.

(** Returns the existing value if present, otherwise stores and returns
    the given one; the flag is true when the value was loaded. *)
Definition LoadOrStore (key : string) (value : V) (sm : gmap string V)
  : (V * bool) * gmap string V :=
  match sm !! key with
  | Some actual => ((actual, true), sm)
  | None => ((value, false), <[key := value]> sm)
  end.
End Ops.
End SyncMap.

(** ** The database and the memory it lives in *)

Record DBContent : Type := mkDBContent {
  data : vocabType;
  isLocal : bool
}.

(** A [*sync.Mutex]: the index of the mutex in the heap. *)
Abbreviation mutexRef := nat (only parsing).

Record DB : Type := mkDB {
  content : gmap string DBContent;
  locks : gmap string mutexRef;
  hostname : string
}.

Record Mem : Type := mkMem {
  db : DB;
  mutexes : list bool
}.

(** [db.Construct(content, locks, hostname)] on a zero [DB]. *)
Definition Construct (c : gmap string DBContent) (l : gmap string mutexRef)
    (h : string) : DB :=
  {| content := c; locks := l; hostname := h |}.

Definition with_content (f : gmap string DBContent -> gmap string DBContent)
    (s : Mem) : Mem :=
  {| db := {| content := f (content (db s)); locks := locks (db s);
              hostname := hostname (db s) |};
     mutexes := mutexes s |}.

Definition with_locks (l : gmap string mutexRef) (s : Mem) : Mem :=
  {| db := {| content := content (db s); locks := l;
              hostname := hostname (db s) |};
     mutexes := mutexes s |}.

Definition with_mutexes (h : list bool) (s : Mem) : Mem :=
  {| db := db s; mutexes := h |}.

(** ** Computations *)

Inductive outcome (A : Type) : Type :=
  | Returns (a : A) (s : Mem)
  | Fatal (msg : string)
  | Blocks
  | Spins.
Arguments Returns {A} a s.
Arguments Fatal {A} msg.
Arguments Blocks {A}.
Arguments Spins {A}.

Definition M (A : Type) : Type := Mem -> outcome A.

Definition ret {A} (a : A) : M A := fun s => Returns a s.

Definition bind {A B} (c : M A) (k : A -> M B) : M B :=
  fun s =>
    match c s with
    | Returns a s' => k a s'
    | Fatal msg => Fatal msg
    | Blocks => Blocks
    | Spins => Spins
    end.

Declare Scope go_scope.
Delimit Scope go_scope with go.
Notation "'let*' x ':=' c 'in' k" := (bind c (fun x => k))
  (at level 10, x pattern, c at level 100, k at level 200) : go_scope.
Notation "'run' c 'then' k" := (bind c (fun _ => k))
  (at level 10, c at level 100, k at level 200) : go_scope.
Local Open Scope go_scope.

(** *** Primitive steps *)

Definition content_Load (key : string) : M (option DBContent) :=
  fun s => Returns (SyncMap.Load key (content (db s))) s.

Definition content_Store (key : string) (v : DBContent) : M unit :=
  fun s => Returns tt (with_content (SyncMap.Store key v) s).

Definition locks_Load (key : string) : M (option mutexRef) :=
  fun s => Returns (SyncMap.Load key (locks (db s))) s.

Definition locks_LoadOrStore (key : string) (mu : mutexRef)
    : M (mutexRef * bool) :=
  fun s =>
    let '(r, l') := SyncMap.LoadOrStore key mu (locks (db s)) in
    Returns r (with_locks l' s).

Definition get_hostname : M string :=
  fun s => Returns (hostname (db s)) s.

(** [&sync.Mutex{}]: a new, unlocked mutex. *)
Definition new_Mutex : M mutexRef :=
  fun s => Returns (length (mutexes s)) (with_mutexes (mutexes s ++ [false]) s).

(** [mu.Lock()] called with nobody else running: it returns when the mutex
    is free and parks the caller for good when it is not. *)
Definition Mutex_Lock (mu : mutexRef) : M unit :=
  fun s =>
    match mutexes s !! mu with
    | Some false => Returns tt (with_mutexes (<[mu := true]> (mutexes s)) s)
    | Some true => Blocks
    | None => Fatal "invalid memory address or nil pointer dereference"
    end.

(** [mu.Unlock()]: it is a run-time error if the mutex is not locked. *)
Definition Mutex_Unlock (mu : mutexRef) : M unit :=
  fun s =>
    match mutexes s !! mu with
    | Some true => Returns tt (with_mutexes (<[mu := false]> (mutexes s)) s)
    | Some false => Fatal "sync: unlock of unlocked mutex"
    | None => Fatal "invalid memory address or nil pointer dereference"
    end.

(** ** The methods of [*DB] *)

Definition Lock (id : URL) : M error :=
  let* mu := new_Mutex in
  run Mutex_Lock mu then
  let* (i, loaded) := locks_LoadOrStore (URL_String id) mu in
  run (if loaded then Mutex_Lock i else ret tt) then
  ret None.

Definition Unlock (id : URL) : M error :=
  let* i := locks_Load (URL_String id) in
  match i with
  | None => ret (errors_New "Missing an id in Unlock")
  | Some mu => run Mutex_Unlock mu then ret None
  end.

Definition Owns (id : URL) : M (bool * error) :=
  let* h := get_hostname in
  ret (String.eqb (Host id) h, None).

Definition Exists (id : URL) : M (bool * error) :=
  let* v := content_Load (URL_String id) in
  ret (match v with Some _ => true | None => false end, None).

(** The source asserts the loaded value to [*content], a type the package
    does not declare; the values [Create] stores are [*DBContent].  Its last
    line, [return con.data], leaves [err] at [nil]. *)
Definition Get (id : URL) : M (option vocabType * error) :=
  let* iCon := content_Load (URL_String id) in
  match iCon with
  | None => ret (None, errors_New "Get failed")
  | Some con => ret (Some (data con), None)
  end.

(** [m.Owns(id)] in the source, without the context argument. *)
Definition Create (asType : vocabType) : M error :=
  match pub_GetId asType with
  | Err e => ret (Some e)
  | Ok id =>
      let* (owns, err) := Owns id in
      match err with
      | Some e => ret (Some e)
      | None =>
          run content_Store (URL_String id)
                {| data := asType; isLocal := owns |} then
          ret None
      end
  end.

Definition Update (asType : vocabType) : M error :=
  Create asType.

(** The body of [Delete] is [m.Delete(id.String()); return nil].  As in
    [m.Owns(id)] of [Create], the receiver is [m], a [DB], and the context
    argument is missing; the method of [DB] by that name is [Delete]
    itself, where [Exists], [Get] and [Create] go through [m.content].
    [fuel] bounds the depth of the recursion; a call that uses it up has
    not returned. *)
Fixpoint Delete (fuel : nat) (id : URL) : M error :=
  match fuel with
  | O => fun _ => Spins
  | S fuel' => run Delete fuel' id then ret None
  end.

(** Modelled from the spec: [getOrderedCollection], which [InboxContains]
    and [SetInbox] call and the repository does not define; the comment at
    each call says it "uses the map m.content to do the lookup".  It is the
    helper that "loads the full OrderedCollection" stored at an identifier;
    it fails when the identifier resolves to no document and when the
    document found is not an ordered collection. *)
Definition getOrderedCollection (iri : URL) : M (result vocabType) :=
  let* iCon := content_Load (URL_String iri) in
  match iCon with
  | None => ret (Err "getOrderedCollection: not found")
  | Some con =>
      match data con with
      | ASOrderedCollection _ _ => ret (Ok (data con))
      | _ => ret (Err "getOrderedCollection: not an OrderedCollection")
      end
  end.

(** [oc.GetActivityStreamsOrderedItems()]: [nil] when the property is not
    there. *)
Definition GetActivityStreamsOrderedItems (t : vocabType)
    : option (list item) :=
  match t with
  | ASObject _ _ => None
  | ASOrderedCollection _ oi => oi
  | ASOrderedCollectionPage _ _ _ oi => oi
  end.

(** The [for] loop of [InboxContains], from [oi.Begin()] to [oi.End()]. *)
Fixpoint InboxContains_loop (id : URL) (oi : list item) : bool * error :=
  match oi with
  | [] => (false, None)
  | iter :: rest =>
      match pub_ToId iter with
      | Err e => (false, Some e)
      | Ok iterId =>
          if String.eqb (URL_String iterId) (URL_String id)
          then (true, None)
          else InboxContains_loop id rest
      end
  end.

Definition InboxContains (inbox id : URL) : M (bool * error) :=
  let* r := getOrderedCollection inbox in
  match r with
  | Err e => ret (false, Some e)
  | Ok oc =>
      match GetActivityStreamsOrderedItems oc with
      | None => ret (false, None)
      | Some oi => ret (InboxContains_loop id oi)
      end
  end.

(** ** Merging a page into the stored collection *)

(** The repository has no code for the merge; [edit], [diff], [apply_edit]
    and [same_item] are the parts of [applyDiffOrderedCollection] below. *)

(** An edit script over the old sequence: keep its next element, drop it,
    or put a new element in front of it. *)
Inductive edit (A : Type) : Type :=
  | Keep
  | Remove
  | Insert (x : A).
Arguments Keep {A}.
Arguments Remove {A}.
Arguments Insert {A} x.

Section Diff.
Context {A : Type} (same : A -> A -> bool).

Fixpoint edit_cost (es : list (edit A)) : nat :=
  match es with
  | [] => 0
  | Keep :: es' => edit_cost es'
  | Remove :: es' => S (edit_cost es')
  | Insert _ :: es' => S (edit_cost es')
  end.

(** Modelled from the spec: the "minimal edit" of
    [applyDiffOrderedCollection].  Heads that are the same are kept;
    otherwise the script is the cheaper of dropping the old head and
    inserting the new one. *)
Fixpoint diff (old new : list A) : list (edit A) :=
  match old with
  | [] => map Insert new
  | x :: old' =>
      (fix diff_old (new : list A) : list (edit A) :=
         match new with
         | [] => Remove :: diff old' []
         | y :: new' =>
             if same x y then Keep :: diff old' new'
             else
               let r := Remove :: diff old' new in
               let i := Insert y :: diff_old new' in
               if Nat.leb (edit_cost r) (edit_cost i) then r else i
         end) new
  end.

Fixpoint apply_edit (es : list (edit A)) (l : list A) : list A :=
  match es with
  | [] => l
  | Keep :: es' =>
      match l with
      | x :: l' => x :: apply_edit es' l'
      | [] => apply_edit es' []
      end
  | Remove :: es' =>
      match l with
      | _ :: l' => apply_edit es' l'
      | [] => apply_edit es' []
      end
  | Insert y :: es' => y :: apply_edit es' l
  end.

(** [rewrites es old new]: the script [es] goes through [old] once and
    leaves [new], keeping only elements that are the same. *)
Inductive rewrites : list (edit A) → list A → list A → Prop :=
  | rewrites_nil : rewrites [] [] []
  | rewrites_keep x y es old new :
      same x y = true → rewrites es old new →
      rewrites (Keep :: es) (x :: old) (y :: new)
  | rewrites_remove x es old new :
      rewrites es old new → rewrites (Remove :: es) (x :: old) new
  | rewrites_insert y es old new :
      rewrites es old new → rewrites (Insert y :: es) old (y :: new).

(** An element of the merged window is an element of the page, or the
    stored element that the page's element was matched with. *)
Definition kept_or_new (m y : A) : Prop := m = y ∨ same m y = true.
End Diff.

(** Modelled from the spec: the comparison of "item references" in
    [applyDiffOrderedCollection].  Two are the same when both name an
    identifier and the identifiers have the same canonical form. *)
Definition same_item (i j : item) : bool :=
  match pub_ToId i, pub_ToId j with
  | Ok u, Ok v => String.eqb (URL_String u) (URL_String v)
  | _, _ => false
  end.

(** Modelled from the spec: [applyDiffOrderedCollection], which [SetInbox]
    calls and the repository does not define ("left as an exercise for the
    reader").  It "computes the minimal edit (inserted/removed item
    references) implied by comparing the provided page against the
    corresponding slice of the previously-known state" and "applies that
    edit to the full collection".  The page is the spec's bounded view, an
    offset and a limit with the items; the corresponding slice is the
    [limit] stored items from [startIndex] on. *)
Definition applyDiffOrderedCollection (stored page : vocabType) : vocabType :=
  match stored, page with
  | ASOrderedCollection cid oi, ASOrderedCollectionPage _ start lim pi =>
      let full := default [] oi in
      let slice := take lim (drop start full) in
      let es := diff same_item slice (default [] pi) in
      ASOrderedCollection cid
        (Some (take start full ++ apply_edit es (drop start full)))
  | _, _ => stored
  end.

(** Modelled from the spec: [saveToContent], which [SetInbox] calls and
    the repository does not define; it "persists the result via
    ResourceStore.Update". *)
Definition saveToContent (t : vocabType) : M error :=
  Update t.

(** [inboxIRI] is not bound in the source of [SetInbox]; it is the spec's
    [collectionId], the identifier of the collection the page belongs to. *)
Definition SetInbox (inboxIRI : URL) (inbox : vocabType) : M error :=
  let* r := getOrderedCollection inboxIRI in
  match r with
  | Err e => ret (Some e)
  | Ok storedInbox =>
      let updatedInbox := applyDiffOrderedCollection storedInbox inbox in
      saveToContent updatedInbox
  end.

(** ** Goroutines racing through [Lock] *)

(** Where a goroutine stands inside [Lock], with the local variables that
    are live there: [mu] after line 42, [mu] and [loaded] after line 44. *)
Inductive pc : Type :=
  | AtNewMutex
  | AtOptimisticLock (mu : mutexRef)
  | AtLoadOrStore (mu : mutexRef)
  | AtLockExisting (mu : mutexRef)
  | Returned (mu : mutexRef) (loaded : bool).

Record goroutine : Type := mkGoroutine {
  g_id : URL;
  g_pc : pc
}.

Record System : Type := mkSystem {
  mem : Mem;
  goroutines : list goroutine
}.

Definition at_pc (g : goroutine) (p : pc) : goroutine :=
  {| g_id := g_id g; g_pc := p |}.

(** One atomic action of a goroutine.  A goroutine that cannot move (it has
    returned, or it waits for a locked mutex) stays where it is. *)
Definition step_goroutine (g : goroutine) (s : Mem) : goroutine * Mem :=
  match g_pc g with
  | AtNewMutex =>
      match new_Mutex s with
      | Returns mu s' => (at_pc g (AtOptimisticLock mu), s')
      | _ => (g, s)
      end
  | AtOptimisticLock mu =>
      match Mutex_Lock mu s with
      | Returns _ s' => (at_pc g (AtLoadOrStore mu), s')
      | _ => (g, s)
      end
  | AtLoadOrStore mu =>
      match locks_LoadOrStore (URL_String (g_id g)) mu s with
      | Returns (i, loaded) s' =>
          if loaded then (at_pc g (AtLockExisting i), s')
          else (at_pc g (Returned mu false), s')
      | _ => (g, s)
      end
  | AtLockExisting i =>
      match Mutex_Lock i s with
      | Returns _ s' => (at_pc g (Returned i true), s')
      | _ => (g, s)
      end
  | Returned _ _ => (g, s)
  end.

(** The scheduler picks goroutine [n]. *)
Definition step (n : nat) (σ : System) : System :=
  match goroutines σ !! n with
  | None => σ
  | Some g =>
      let '(g', s') := step_goroutine g (mem σ) in
      {| mem := s'; goroutines := <[n := g']> (goroutines σ) |}
  end.

Definition exec (sched : list nat) (σ : System) : System :=
  fold_left (fun σ n => step n σ) sched σ.

(** The mutex a goroutine waits for or holds once it is past
    [LoadOrStore]. *)
Definition target (p : pc) : option mutexRef :=
  match p with
  | AtLockExisting mu => Some mu
  | Returned mu _ => Some mu
  | _ => None
  end.

(** The goroutine's own mutex went into the registry. *)
Definition installed (p : pc) : bool :=
  match p with
  | Returned _ false => true
  | _ => false
  end.

Definition registry (σ : System) : gmap string mutexRef :=
  locks (db (mem σ)).

(** ** Case folding, for the spec's reading of [Owns] *)

Definition lower (c : ascii) : ascii :=
  let n := nat_of_ascii c in
  if Nat.leb 65 n && Nat.leb n 90 then ascii_of_nat (n + 32) else c.

Fixpoint to_lower (s : string) : string :=
  match s with
  | EmptyString => EmptyString
  | String c s' => String (lower c) (to_lower s')
  end.

(** [strings.EqualFold] on ASCII. *)
Definition EqualFold (a b : string) : bool :=
  String.eqb (to_lower a) (to_lower b).

(** ** Vocabulary of the properties *)

(** The computation returns on every memory and leaves it as it was. *)
Definition read_only {A} (c : M A) : Prop :=
  ∀ s, ∃ a, c s = Returns a s.

Definition key (g : goroutine) : string := URL_String (g_id g).

(** What holds of the entry for [k] in every reachable state: a goroutine
    past [LoadOrStore] has the registered mutex in hand, and at most one
    goroutine put its own mutex there. *)
Definition one_mutex (k : string) (σ : System) : Prop :=
  (∀ i g mu, goroutines σ !! i = Some g → key g = k →
             target (g_pc g) = Some mu → registry σ !! k = Some mu) ∧
  (∀ i j gi gj, goroutines σ !! i = Some gi → goroutines σ !! j = Some gj →
                key gi = k → key gj = k →
                installed (g_pc gi) = true → installed (g_pc gj) = true →
                i = j).

(** An entry for [k] was put there by one of the goroutines. *)
Definition entry_has_installer (k : string) (σ : System) : Prop :=
  is_Some (registry σ !! k) →
  ∃ i g, goroutines σ !! i = Some g ∧ key g = k ∧
         installed (g_pc g) = true.

(** The mutex a goroutine has locked itself: its own after line 43, the
    registered one after line 47. *)
Definition holds (p : pc) : option mutexRef :=
  match p with
  | AtLoadOrStore mu => Some mu
  | Returned mu _ => Some mu
  | _ => None
  end.

(** Every mutex that some goroutine holds is locked. *)
Definition held_locked (σ : System) : Prop :=
  ∀ i g mu, goroutines σ !! i = Some g → holds (g_pc g) = Some mu →
            mutexes (mem σ) !! mu = Some true.

(** The element stands for the identifier [id]. *)
Definition names (id : URL) (x : item) : bool :=
  match pub_ToId x with
  | Ok u => String.eqb (URL_String u) (URL_String id)
  | Err _ => false
  end.

(** [pub.ToId] finds an identifier in the element. *)
Definition has_id (x : item) : bool :=
  match pub_ToId x with
  | Ok _ => true
  | Err _ => false
  end.

(** ** Fixtures *)

Definition local_url (p : string) : URL :=
  {| Scheme := "https"; Host := "localhost"; Path := p |}.

(** The database [rootCmd] builds: empty maps, host [localhost]. *)
Definition fresh_mem : Mem :=
  {| db := Construct ∅ ∅ "localhost"; mutexes := [] |}.

Definition note (p : string) : vocabType :=
  ASObject "Note" (Some (local_url p)).

Definition other_example : Mem :=
  {| db := Construct ∅ ∅ "other.example"; mutexes := [] |}.

Definition OTHER_users_x : URL :=
  {| Scheme := "https"; Host := "OTHER.example"; Path := "/users/x" |}.

(** The memory after [Lock] then [Unlock] on [/inbox]: the entry is in
    the registry and its mutex is free. *)
Definition released_mem : Mem :=
  {| db := Construct ∅ {[ "https://localhost/inbox" := 0 ]} "localhost";
     mutexes := [false] |}.

(** The memory after [Lock] on [/inbox]: the mutex is held. *)
Definition held_mem : Mem :=
  {| db := Construct ∅ {[ "https://localhost/inbox" := 0 ]} "localhost";
     mutexes := [true] |}.

Definition inbox_url : URL := local_url "/inbox".

Definition iri (p : string) : item := ItemIRI (local_url p).

(** An inbox whose first element has no identifier. *)
Definition anonymous_first_mem : Mem :=
  {| db := Construct
             {[ "https://localhost/inbox" :=
                  {| data := ASOrderedCollection (Some inbox_url)
                               (Some [ItemType (ASObject "Note" None);
                                      iri "/x"]);
                     isLocal := true |} ]}
             ∅ "localhost";
     mutexes := [] |}.

(** The inbox [a, b, c, d, e], and the page over [b, c] sent back as
    [b, x, c]. *)
Definition abcde : vocabType :=
  ASOrderedCollection (Some inbox_url)
    (Some [iri "/a"; iri "/b"; iri "/c"; iri "/d"; iri "/e"]).

Definition abcde_mem : Mem :=
  {| db := Construct
             {[ "https://localhost/inbox" :=
                  {| data := abcde; isLocal := true |} ]}
             ∅ "localhost";
     mutexes := [] |}.

Definition page_bxc : vocabType :=
  ASOrderedCollectionPage None 1 2 (Some [iri "/b"; iri "/x"; iri "/c"]).

(** The same page sent back as [b]. *)
Definition page_b : vocabType :=
  ASOrderedCollectionPage None 1 2 (Some [iri "/b"]).

Definition racers : System :=
  {| mem := fresh_mem;
     goroutines := [ {| g_id := inbox_url; g_pc := AtNewMutex |};
                     {| g_id := inbox_url; g_pc := AtNewMutex |};
                     {| g_id := inbox_url; g_pc := AtNewMutex |} ] |}.

(** The three take turns; the second is first at [LoadOrStore]. *)
Definition race : list nat := [0; 1; 2; 0; 1; 2; 1; 0; 2; 0; 2; 1].

(** ** Followers *)

(** [vocab.ActivityStreamsPerson], as far as [Followers] reads it: the
    [followers] property, [None] when it is not set, otherwise an IRI or
    an embedded value. *)
Record ActivityStreamsPerson : Type := mkPerson {
  person_id : option URL;
  person_followers : option item
}.

(** [person.GetActivityStreamsFollowers()]. *)
Definition GetActivityStreamsFollowers (person : ActivityStreamsPerson)
    : option item :=
  person_followers person.

Section Actors.

(** [getPerson], "a helper method that returns an actor on this server
    with a Person ActivityStreams type.  It is not implemented in this
    tutorial": a parameter. *)
Variable getPerson : URL → M (result ActivityStreamsPerson).

(** [Followers]: the named results are [followers] and [err]; a bare
    [return] gives them back as they stand. *)
Definition Followers (actorIRI : URL) : M (option vocabType * error) :=
  let* r := getPerson actorIRI in
  match r with
  | Err e => ret (None, Some e)
  | Ok person =>
      match GetActivityStreamsFollowers person with
      | None => ret (None, errors_New "no followers collection")
      | Some f =>
          match pub_ToId f with
          | Err e => ret (None, Some e)
          | Ok followersId =>
              let* oc := getOrderedCollection followersId in
              match oc with
              | Ok c => ret (Some c, None)
              | Err e => ret (None, Some e)
              end
          end
      end
  end.

End Actors.

(** ** More vocabulary *)

(** No mutex is in the hands of two goroutines. *)
Definition sole_holders (σ : System) : Prop :=
  ∀ i j gi gj mu, goroutines σ !! i = Some gi → goroutines σ !! j = Some gj →
                  holds (g_pc gi) = Some mu → holds (g_pc gj) = Some mu →
                  i = j.

(** Every entry of the registry points at a mutex that exists, and no two
    entries share one. *)
Definition registry_wf (s : Mem) : Prop :=
  (∀ k i, locks (db s) !! k = Some i → i < length (mutexes s)) ∧
  (∀ k k' i, locks (db s) !! k = Some i → locks (db s) !! k' = Some i →
             k = k').

(** ** Fixtures for the other methods *)

(** The inbox identifier written with a path that lacks its slash. *)
Definition inbox_url_bare : URL :=
  {| Scheme := "https"; Host := "localhost"; Path := "inbox" |}.

Definition followers_url : URL := local_url "/users/a/followers".

(** The followers collection as the store has it, and a stale copy of it
    embedded in the actor. *)
Definition stored_followers : vocabType :=
  ASOrderedCollection (Some followers_url) (Some [iri "/users/b"]).

Definition embedded_followers : vocabType :=
  ASOrderedCollection (Some followers_url) None.

Definition followers_mem : Mem :=
  {| db := Construct
             {[ "https://localhost/users/a/followers" :=
                  {| data := stored_followers; isLocal := true |} ]}
             ∅ "localhost";
     mutexes := [] |}.

Definition person_a : ActivityStreamsPerson :=
  {| person_id := Some (local_url "/users/a");
     person_followers := Some (ItemType embedded_followers) |}.

(** A [getPerson] that knows one actor. *)
Definition getPerson_a (actorIRI : URL) : M (result ActivityStreamsPerson) :=
  if String.eqb (URL_String actorIRI) "https://localhost/users/a"
  then ret (Ok person_a)
  else ret (Err "getPerson: not found").

(** * Properties *)

(** ** Computations that only read *)

Lemma read_only_ret {A} (a : A) : read_only (ret a).
Proof. intros s. by exists a. Qed.

Lemma read_only_bind {A B} (c : M A) (k : A → M B) :
  read_only c → (∀ a, read_only (k a)) → read_only (bind c k).
Proof.
  intros Hc Hk s. destruct (Hc s) as [a Ha].
  destruct (Hk a s) as [b Hb]. exists b.
  unfold bind. by rewrite Ha.
Qed.

Lemma read_only_content_Load key : read_only (content_Load key).
Proof. intros s. by eexists. Qed.

Lemma read_only_locks_Load key : read_only (locks_Load key).
Proof. intros s. by eexists. Qed.

Lemma read_only_get_hostname : read_only get_hostname.
Proof. intros s. by eexists. Qed.

Create HintDb reads.
#[local] Hint Resolve read_only_ret read_only_content_Load
  read_only_locks_Load read_only_get_hostname : reads.

Ltac read_only_tac :=
  repeat first
    [ apply read_only_bind; [ | intros ? ]
    | progress auto with reads
    | match goal with
      | |- read_only (match ?x with _ => _ end) => destruct x
      end ].

Lemma read_only_getOrderedCollection iri :
  read_only (getOrderedCollection iri).
Proof. unfold getOrderedCollection. read_only_tac. Qed.

#[local] Hint Resolve read_only_getOrderedCollection : reads.

Lemma read_only_Owns id : read_only (Owns id).
Proof. unfold Owns. read_only_tac. Qed.

Lemma read_only_Exists id : read_only (Exists id).
Proof. unfold Exists. read_only_tac. Qed.

Lemma read_only_Get id : read_only (Get id).
Proof. unfold Get. read_only_tac. Qed.

Lemma read_only_InboxContains inbox id : read_only (InboxContains inbox id).
Proof. unfold InboxContains. read_only_tac. Qed.

(** C10.  [Exists], [Get], [Owns] and [InboxContains] are pure reads: on
    every input each returns, and the memory it returns in (content table,
    lock registry, host name and mutexes) is the memory it was called in. *)
Theorem queries_leave_memory_unchanged (s : Mem) (inbox id : URL) :
  (∃ r, Exists id s = Returns r s) ∧
  (∃ r, Get id s = Returns r s) ∧
  (∃ r, Owns id s = Returns r s) ∧
  (∃ r, InboxContains inbox id s = Returns r s).
Proof.
  repeat split.
  - apply read_only_Exists.
  - apply read_only_Get.
  - apply read_only_Owns.
  - apply read_only_InboxContains.
Qed.

(** ** Ownership *)

Lemma Owns_eq (id : URL) (s : Mem) :
  Owns id s = Returns (String.eqb (Host id) (hostname (db s)), None) s.
Proof. reflexivity. Qed.

(** C4, as the code has it.  [Owns] returns true exactly when the host of
    the identifier and the configured host name are the same string, letter
    case included; it never returns an error. *)
Theorem Owns_iff_same_host (s : Mem) (id : URL) :
  ∃ owns, Owns id s = Returns (owns, None) s ∧
          (owns = true ↔ Host id = hostname (db s)).
Proof.
  exists (String.eqb (Host id) (hostname (db s))). split.
  - apply Owns_eq.
  - apply String.eqb_eq.
Qed.

(** C4, as the spec has it, fails: with host name [other.example] the
    identifier [https://OTHER.example/users/x] has a host equal to it up to
    letter case, and [Owns] returns false. *)
Lemma Owns_folds_no_case :
  URL_String OTHER_users_x = "https://OTHER.example/users/x" ∧
  EqualFold (Host OTHER_users_x) (hostname (db other_example)) = true ∧
  Owns OTHER_users_x other_example = Returns (false, None) other_example.
Proof. repeat split; reflexivity. Qed.

(** ** Create, Update, Get *)

Lemma Create_with_id (doc : vocabType) (id : URL) (s : Mem) :
  pub_GetId doc = Ok id →
  Create doc s =
    Returns None
      (with_content
         (SyncMap.Store (URL_String id)
            {| data := doc;
               isLocal := String.eqb (Host id) (hostname (db s)) |}) s).
Proof. intros H. unfold Create. rewrite H. reflexivity. Qed.

Lemma Create_without_id (doc : vocabType) (e : string) (s : Mem) :
  pub_GetId doc = Err e → Create doc s = Returns (Some e) s.
Proof. intros H. unfold Create. rewrite H. reflexivity. Qed.

(** C6.  For a document with an identifier, [Create] succeeds and [Get] on
    that identifier then returns the document, with no error. *)
Theorem Create_then_Get (s : Mem) (doc : vocabType) (id : URL) :
  pub_GetId doc = Ok id →
  ∃ s', Create doc s = Returns None s' ∧
        Get id s' = Returns (Some doc, None) s'.
Proof.
  intros H. eexists. split; [by apply Create_with_id|].
  unfold Get, bind, content_Load, SyncMap.Load, SyncMap.Store. simpl.
  by rewrite lookup_insert_eq.
Qed.

Lemma Create_then_Get_witness :
  ∃ s', Create (note "/notes/1") fresh_mem = Returns None s' ∧
        Get (local_url "/notes/1") s' =
          Returns (Some (note "/notes/1"), None) s'.
Proof. apply (Create_then_Get fresh_mem (note "/notes/1")). reflexivity. Defined.

(** C7.  [Create] always returns; it returns an error exactly when
    [pub.GetId] finds no identifier in the document, the error is the one
    [pub.GetId] gave, and the memory is then the one it was called in. *)
Theorem Create_fails_iff_no_id (s : Mem) (doc : vocabType) :
  ∃ err s',
    Create doc s = Returns err s' ∧
    (∀ e, err = Some e ↔ pub_GetId doc = Err e) ∧
    (err ≠ None ↔ GetJSONLDId doc = None) ∧
    (err ≠ None → s' = s).
Proof.
  destruct (pub_GetId doc) as [id|e] eqn:H.
  - exists None. eexists. split; [by apply Create_with_id|].
    unfold pub_GetId in H. destruct (GetJSONLDId doc); [|done].
    repeat split; try done.
  - exists (Some e), s. split; [by apply Create_without_id|].
    unfold pub_GetId in H. destruct (GetJSONLDId doc); [done|].
    repeat split; try done; intros; congruence.
Qed.

(** C9.  [Update] is [Create]: same result, same final memory.  For a
    document with an identifier it writes the one entry under the
    identifier's string, whatever was there, and touches nothing else. *)
Theorem Update_is_Create (s : Mem) (doc : vocabType) :
  Update doc s = Create doc s ∧
  ∀ id, pub_GetId doc = Ok id →
    ∃ s', Update doc s = Returns None s' ∧
          content (db s') =
            <[URL_String id :=
                {| data := doc;
                   isLocal := String.eqb (Host id) (hostname (db s)) |}]>
              (content (db s)) ∧
          locks (db s') = locks (db s) ∧
          hostname (db s') = hostname (db s) ∧
          mutexes s' = mutexes s.
Proof.
  split; [reflexivity|]. intros id H. eexists.
  split; [unfold Update; by apply Create_with_id|]. done.
Qed.

Lemma Update_is_Create_witness :
  Update (note "/notes/1") fresh_mem = Create (note "/notes/1") fresh_mem ∧
  ∃ s', Update (note "/notes/1") fresh_mem = Returns None s' ∧
        content (db s') !! "https://localhost/notes/1" =
          Some {| data := note "/notes/1"; isLocal := true |}.
Proof.
  destruct (Update_is_Create fresh_mem (note "/notes/1")) as [H1 H2].
  split; [exact H1|].
  destruct (H2 (local_url "/notes/1") eq_refl) as (s' & Hs' & Hc & _).
  exists s'. split; [exact Hs'|]. rewrite Hc. apply lookup_insert_eq.
Defined.

(** ** Delete *)

(** C5, on the code.  [Delete] calls itself before anything else, so at no
    recursion depth does it return; the content table is never reached. *)
Theorem Delete_never_returns (fuel : nat) (id : URL) (s : Mem) :
  Delete fuel id s = Spins.
Proof.
  induction fuel as [|fuel IH]; [reflexivity|].
  simpl. unfold bind. by rewrite IH.
Qed.

(** ** Unlock *)

(** C2, as the code has it.  [Unlock] returns an error, and leaves the memory
    alone, when the identifier has no entry in the lock registry.  With an
    entry it unlocks the mutex and returns no error when the mutex is held,
    and dies in [sync.Mutex.Unlock] when the mutex is not held. *)
Theorem Unlock_by_registry_entry (s : Mem) (id : URL) :
  (locks (db s) !! URL_String id = None →
   Unlock id s = Returns (errors_New "Missing an id in Unlock") s) ∧
  (∀ mu, locks (db s) !! URL_String id = Some mu →
         mutexes s !! mu = Some true →
         Unlock id s =
           Returns None (with_mutexes (<[mu := false]> (mutexes s)) s)) ∧
  (∀ mu, locks (db s) !! URL_String id = Some mu →
         mutexes s !! mu = Some false →
         Unlock id s = Fatal "sync: unlock of unlocked mutex").
Proof.
  unfold Unlock, bind, locks_Load, SyncMap.Load, Mutex_Unlock.
  repeat split.
  - by intros ->.
  - intros mu -> H. by rewrite H.
  - intros mu -> H. by rewrite H.
Qed.

Lemma released_mem_reached :
  (run Lock (local_url "/inbox") then Unlock (local_url "/inbox")) fresh_mem
  = Returns None released_mem.
Proof. vm_compute. reflexivity. Qed.

Lemma held_mem_reached :
  Lock (local_url "/inbox") fresh_mem = Returns None held_mem.
Proof. vm_compute. reflexivity. Qed.

Lemma Unlock_by_registry_entry_witness :
  Unlock (local_url "/other") released_mem =
    Returns (errors_New "Missing an id in Unlock") released_mem ∧
  Unlock (local_url "/inbox") held_mem = Returns None released_mem ∧
  Unlock (local_url "/inbox") released_mem =
    Fatal "sync: unlock of unlocked mutex".
Proof.
  destruct (Unlock_by_registry_entry released_mem (local_url "/other"))
    as (H1 & _ & _).
  destruct (Unlock_by_registry_entry held_mem (local_url "/inbox"))
    as (_ & H2 & _).
  destruct (Unlock_by_registry_entry released_mem (local_url "/inbox"))
    as (_ & _ & H3).
  split; [|split].
  - apply H1. reflexivity.
  - apply (H2 0); reflexivity.
  - apply (H3 0); reflexivity.
Defined.

(** C2, as the spec has it, fails: after [Lock] and [Unlock] the identifier
    has an entry and no outstanding lock, and a second [Unlock] returns no
    error value; the runtime stops the program. *)
Lemma Unlock_of_released_is_fatal :
  locks (db released_mem) !! URL_String (local_url "/inbox") = Some 0 ∧
  mutexes released_mem !! 0 = Some false ∧
  Unlock (local_url "/inbox") released_mem =
    Fatal "sync: unlock of unlocked mutex" ∧
  ¬ ∃ e s', Unlock (local_url "/inbox") released_mem = Returns (Some e) s'.
Proof.
  repeat split; try reflexivity.
  intros (e & s' & H). vm_compute in H. discriminate.
Qed.

(** ** InboxContains *)

Lemma names_has_id (id : URL) (x : item) : names id x = true → has_id x = true.
Proof. unfold names, has_id. by destruct (pub_ToId x). Qed.

Lemma InboxContains_loop_cons (id : URL) (x : item) (oi : list item) :
  InboxContains_loop id (x :: oi) =
    if names id x then (true, None)
    else match pub_ToId x with
         | Ok _ => InboxContains_loop id oi
         | Err e => (false, Some e)
         end.
Proof.
  simpl. unfold names. destruct (pub_ToId x) as [u|e]; [|done].
  by destruct (String.eqb _ _).
Qed.

(** The loop finds [id] when an element stands for it and every element
    before that one has an identifier. *)
Lemma InboxContains_loop_found (id : URL) (pre : list item) (x : item)
    (post : list item) :
  Forall (λ y, has_id y = true) pre → names id x = true →
  InboxContains_loop id (pre ++ x :: post) = (true, None).
Proof.
  intros Hpre Hx. induction Hpre as [|y pre Hy _ IH].
  - simpl app. rewrite InboxContains_loop_cons. by rewrite Hx.
  - simpl app. rewrite InboxContains_loop_cons.
    destruct (names id y); [done|].
    unfold has_id in Hy. by destruct (pub_ToId y).
Qed.

Lemma InboxContains_loop_true (id : URL) (oi : list item) :
  fst (InboxContains_loop id oi) = true →
  ∃ pre x post, oi = pre ++ x :: post ∧ names id x = true ∧
                Forall (λ y, has_id y = true) pre.
Proof.
  induction oi as [|y oi IH]; [done|].
  rewrite InboxContains_loop_cons.
  destruct (names id y) eqn:Hn.
  - intros _. by exists [], y, oi.
  - destruct (pub_ToId y) as [u|e] eqn:Hy; [|done].
    intros H. destruct (IH H) as (pre & x & post & -> & Hx & Hpre).
    exists (y :: pre), x, post. repeat split; [done|].
    constructor; [|done]. unfold has_id. by rewrite Hy.
Qed.

(** An element with no identifier stops the loop with its error unless
    [id] was found before it. *)
Lemma InboxContains_loop_error (id : URL) (oi : list item) (e : string) :
  snd (InboxContains_loop id oi) = Some e →
  fst (InboxContains_loop id oi) = false ∧
  ∃ pre x post, oi = pre ++ x :: post ∧ pub_ToId x = Err e ∧
                Forall (λ y, has_id y = true ∧ names id y = false) pre.
Proof.
  induction oi as [|y oi IH]; [done|].
  rewrite InboxContains_loop_cons.
  destruct (names id y) eqn:Hn; [done|].
  destruct (pub_ToId y) as [u|e'] eqn:Hy.
  - intros H. destruct (IH H) as (Hf & pre & x & post & -> & Hx & Hpre).
    split; [done|]. exists (y :: pre), x, post. repeat split; [done|].
    constructor; [|done]. unfold has_id. by rewrite Hy.
  - simpl. intros [= ->]. split; [done|]. by exists [], y, oi.
Qed.

Lemma InboxContains_stored (s : Mem) (inbox id : URL) (con : DBContent)
    (cid : option URL) (oi : option (list item)) :
  content (db s) !! URL_String inbox = Some con →
  data con = ASOrderedCollection cid oi →
  InboxContains inbox id s =
    Returns (match oi with
             | None => (false, None)
             | Some l => InboxContains_loop id l
             end) s.
Proof.
  intros Hc Hd.
  unfold InboxContains, getOrderedCollection, bind, content_Load,
    SyncMap.Load.
  rewrite Hc, Hd. simpl. by destruct oi.
Qed.

(** The loop gives back false and the error of [pub.ToId] when it comes to
    an element with no identifier and none of the elements before it
    stands for [id]. *)
Lemma InboxContains_loop_stops (id : URL) (pre : list item) (x : item)
    (post : list item) (e : string) :
  Forall (λ y, has_id y = true ∧ names id y = false) pre →
  pub_ToId x = Err e →
  InboxContains_loop id (pre ++ x :: post) = (false, Some e).
Proof.
  intros Hpre Hx. induction Hpre as [|y pre [Hy Hn] _ IH].
  - simpl app. rewrite InboxContains_loop_cons.
    unfold names. by rewrite Hx.
  - simpl app. rewrite InboxContains_loop_cons, Hn.
    unfold has_id in Hy. by destruct (pub_ToId y).
Qed.

(** C8, as the code has it.  On a stored ordered collection
    [InboxContains] returns, in the memory it was called in.  It returns
    true exactly when some element stands for the identifier and every
    element before it has an identifier.  It returns false and no error
    when the items are absent or empty.  It returns false with the error
    [pub.ToId] gave exactly when an element with no identifier comes
    before any element that stands for the identifier; with an error the
    answer is always false. *)
Theorem InboxContains_scans_until_error (s : Mem) (inbox id : URL)
    (con : DBContent) (cid : option URL) (oi : option (list item)) :
  content (db s) !! URL_String inbox = Some con →
  data con = ASOrderedCollection cid oi →
  ∃ r, InboxContains inbox id s = Returns r s ∧
       (fst r = true ↔
        ∃ pre x post, oi = Some (pre ++ x :: post) ∧ names id x = true ∧
                      Forall (λ y, has_id y = true) pre) ∧
       (oi = None ∨ oi = Some [] → r = (false, None)) ∧
       (∀ e, r = (false, Some e) ↔
             ∃ pre x post, oi = Some (pre ++ x :: post) ∧
                           pub_ToId x = Err e ∧
                           Forall (λ y, has_id y = true ∧ names id y = false)
                                  pre) ∧
       (∀ e, snd r = Some e → fst r = false).
Proof.
  intros Hc Hd. eexists. split; [by eapply InboxContains_stored|].
  destruct oi as [l|]; simpl.
  - split; [split|split; [|split]].
    + intros H. destruct (InboxContains_loop_true _ _ H)
        as (pre & x & post & -> & Hx & Hpre). by exists pre, x, post.
    + intros (pre & x & post & [= ->] & Hx & Hpre).
      by rewrite InboxContains_loop_found.
    + intros [|[= ->]]; done.
    + intros e. split.
      * intros H.
        destruct (InboxContains_loop_error id l e) as (_ & pre & x & post
                                                       & -> & Hx & Hpre);
          [by rewrite H|].
        by exists pre, x, post.
      * intros (pre & x & post & [= ->] & Hx & Hpre).
        by apply InboxContains_loop_stops.
    + intros e H. by destruct (InboxContains_loop_error _ _ _ H).
  - split; [split|split; [|split]]; try done.
    + intros (pre & x & post & ? & _); done.
    + intros e. split; [done|]. intros (pre & x & post & ? & _); done.
Qed.

Lemma anonymous_first_mem_reached :
  Create (ASOrderedCollection (Some inbox_url)
            (Some [ItemType (ASObject "Note" None); iri "/x"])) fresh_mem
  = Returns None anonymous_first_mem.
Proof. vm_compute. reflexivity. Qed.

Lemma InboxContains_scans_until_error_witness :
  InboxContains inbox_url (local_url "/y") anonymous_first_mem =
    Returns (false, Some "cannot determine id of activitystreams value")
      anonymous_first_mem.
Proof.
  destruct (InboxContains_scans_until_error anonymous_first_mem inbox_url
              (local_url "/y")
              {| data := ASOrderedCollection (Some inbox_url)
                           (Some [ItemType (ASObject "Note" None);
                                  iri "/x"]);
                 isLocal := true |}
              (Some inbox_url)
              (Some [ItemType (ASObject "Note" None); iri "/x"]))
    as (r & Hr & _ & _ & He & _); [reflexivity|reflexivity|].
  rewrite Hr. f_equal.
  apply (He "cannot determine id of activitystreams value").
  exists [], (ItemType (ASObject "Note" None)), [iri "/x"].
  split; [reflexivity|]. split; [reflexivity|constructor].
Defined.

(** C8, as the spec has it, fails: the second element of this inbox is
    [/x], and [InboxContains] for [/x] returns false, with the error for the
    first element. *)
Lemma InboxContains_misses_after_anonymous :
  (∃ x, x ∈ [ItemType (ASObject "Note" None); iri "/x"] ∧
        pub_ToId x = Ok (local_url "/x")) ∧
  InboxContains inbox_url (local_url "/x") anonymous_first_mem =
    Returns (false, Some "cannot determine id of activitystreams value")
      anonymous_first_mem.
Proof.
  split.
  - exists (iri "/x"). split; [|reflexivity]. apply list_elem_of_In. simpl. tauto.
  - vm_compute. reflexivity.
Qed.

(** ** The page merge *)

Section DiffFacts.
Context {A : Type} (same : A → A → bool).

Lemma diff_nil_l (new : list A) : diff same [] new = map Insert new.
Proof. by destruct new. Qed.

Lemma diff_nil_r (x : A) (old : list A) :
  diff same (x :: old) [] = Remove :: diff same old [].
Proof. reflexivity. Qed.

Lemma diff_cons_cons (x y : A) (old new : list A) :
  diff same (x :: old) (y :: new) =
    if same x y then Keep :: diff same old new
    else
      let r := Remove :: diff same old (y :: new) in
      let i := Insert y :: diff same (x :: old) new in
      if Nat.leb (edit_cost r) (edit_cost i) then r else i.
Proof. reflexivity. Qed.

Lemma apply_edit_inserts (new rest : list A) :
  apply_edit (map Insert new) rest = new ++ rest.
Proof. induction new as [|y new IH]; simpl; congruence. Qed.

(** Applied to a sequence that starts with [old], the script rewrites
    that part and nothing after it. *)
Lemma apply_edit_diff (old new rest : list A) :
  ∃ mid, apply_edit (diff same old new) (old ++ rest) = mid ++ rest ∧
         Forall2 (kept_or_new same) mid new.
Proof.
  revert new. induction old as [|x old IHold]; intros new.
  - rewrite diff_nil_l, apply_edit_inserts. exists new. split; [done|].
    apply Forall2_same_length_lookup_2; [done|].
    intros i a b Ha Hb. left. congruence.
  - induction new as [|y new IHnew].
    + rewrite diff_nil_r. simpl. apply IHold.
    + rewrite diff_cons_cons. destruct (same x y) eqn:Hxy.
      * destruct (IHold new) as (mid & Hm & HF).
        exists (x :: mid). simpl. rewrite Hm. split; [done|].
        constructor; [by right|done].
      * cbv zeta. destruct (Nat.leb _ _).
        -- simpl. apply IHold.
        -- destruct IHnew as (mid & Hm & HF).
           exists (y :: mid). simpl apply_edit. simpl in Hm. rewrite Hm.
           split; [done|]. constructor; [by left|done].
Qed.
(** The script [diff] computes is one of those that rewrite [old] into
    [new]. *)
Lemma diff_rewrites (old new : list A) :
  rewrites same (diff same old new) old new.
Proof.
  revert new. induction old as [|x old IHold]; intros new.
  - rewrite diff_nil_l. induction new; simpl; by constructor.
  - induction new as [|y new IHnew].
    + rewrite diff_nil_r. by constructor.
    + rewrite diff_cons_cons. destruct (same x y) eqn:Hxy.
      * by constructor.
      * cbv zeta. destruct (Nat.leb _ _); by constructor.
Qed.

Lemma rewrites_nil_l (es : list (edit A)) (new : list A) :
  rewrites same es [] new → edit_cost es = length new.
Proof.
  intros H. remember [] as old eqn:E.
  induction H; try done. simpl. by rewrite IHrewrites.
Qed.

Lemma rewrites_nil_r (es : list (edit A)) (old : list A) :
  rewrites same es old [] → edit_cost es = length old.
Proof.
  intros H. remember [] as new eqn:E.
  induction H; try done. simpl. by rewrite IHrewrites.
Qed.

(** A script for a page with one more element in front gives one for the
    page without it, at one more step at most; the same for the stored
    slice. *)
Lemma rewrites_drop_new (es : list (edit A)) (old : list A) (y : A)
    (new : list A) :
  rewrites same es old (y :: new) →
  ∃ es', rewrites same es' old new ∧ (edit_cost es' ≤ S (edit_cost es))%nat.
Proof.
  intros H. remember (y :: new) as l eqn:E. revert y new E.
  induction H as [|x y0 es old l Hxy H _|x es old l H IH|y0 es old l H _];
    intros y new E.
  - done.
  - injection E as -> ->. exists (Remove :: es).
    split; [by constructor|simpl; lia].
  - destruct (IH y new E) as (es' & Hes' & Hc). exists (Remove :: es').
    split; [by constructor|simpl; lia].
  - injection E as -> ->. exists es. split; [done|simpl; lia].
Qed.

Lemma rewrites_drop_old (es : list (edit A)) (x : A) (old new : list A) :
  rewrites same es (x :: old) new →
  ∃ es', rewrites same es' old new ∧ (edit_cost es' ≤ S (edit_cost es))%nat.
Proof.
  intros H. remember (x :: old) as l eqn:E. revert x old E.
  induction H as [|x0 y es l new Hxy H _|x0 es l new H _|y es l new H IH];
    intros x old E.
  - done.
  - injection E as -> ->. exists (Insert y :: es).
    split; [by constructor|simpl; lia].
  - injection E as -> ->. exists es. split; [done|simpl; lia].
  - destruct (IH x old E) as (es' & Hes' & Hc). exists (Insert y :: es').
    split; [by constructor|simpl; lia].
Qed.

(** No script that rewrites [old] into [new] has fewer insertions and
    removals than the one [diff] computes. *)
Lemma diff_minimal (old new : list A) (es : list (edit A)) :
  rewrites same es old new →
  (edit_cost (diff same old new) ≤ edit_cost es)%nat.
Proof.
  revert new es. induction old as [|x old IHold]; intros new.
  - intros es H. rewrite (rewrites_nil_l es new H).
    rewrite <- (rewrites_nil_l _ new (diff_rewrites [] new)). done.
  - induction new as [|y new IHnew]; intros es H.
    + rewrite (rewrites_nil_r es _ H).
      by rewrite (rewrites_nil_r _ _ (diff_rewrites (x :: old) [])).
    + rewrite diff_cons_cons.
      assert (Hmin : same x y = false →
                (edit_cost (diff same old (y :: new)) ≤ edit_cost es - 1 ∨
                 edit_cost (diff same (x :: old) new) ≤ edit_cost es - 1 →
                 1 ≤ edit_cost es →
                 edit_cost
                   (let r := Remove :: diff same old (y :: new) in
                    let i := Insert y :: diff same (x :: old) new in
                    if Nat.leb (edit_cost r) (edit_cost i) then r else i)
                 ≤ edit_cost es)%nat).
      { intros _ Hle Hpos. cbv zeta.
        destruct (Nat.leb _ _) eqn:Hl;
          [apply Nat.leb_le in Hl|apply Nat.leb_gt in Hl];
          simpl in *; lia. }
      inversion H as [|x0 y0 es0 old0 new0 Hxy H0|x0 es0 old0 new0 H0
                      |y0 es0 old0 new0 H0]; subst.
      * rewrite Hxy. simpl. by apply IHold.
      * destruct (same x y) eqn:Hxy.
        -- destruct (rewrites_drop_new _ _ _ _ H0) as (es' & Hes' & Hc).
           pose proof (IHold new es' Hes'). simpl. lia.
        -- apply Hmin; [done| |simpl; lia]. left.
           pose proof (IHold (y :: new) es0 H0). simpl. lia.
      * destruct (same x y) eqn:Hxy.
        -- destruct (rewrites_drop_old _ _ _ _ H0) as (es' & Hes' & Hc).
           pose proof (IHold new es' Hes'). simpl. lia.
        -- apply Hmin; [done| |simpl; lia]. right.
           pose proof (IHnew es0 H0). cbn [edit_cost]. lia.
Qed.
End DiffFacts.

Lemma same_item_names (m y : item) (id : URL) :
  same_item m y = true → names id m = names id y ∧ has_id m = true.
Proof.
  unfold same_item, names, has_id.
  destruct (pub_ToId m) as [u|]; [|done].
  destruct (pub_ToId y) as [v|]; [|done].
  intros H. apply String.eqb_eq in H. by rewrite H.
Qed.

Lemma kept_or_new_names (m y : item) (id : URL) :
  kept_or_new same_item m y → names id m = names id y.
Proof. intros [->|H]; [done|]. by apply same_item_names. Qed.

Lemma kept_or_new_has_id (m y : item) :
  kept_or_new same_item m y → has_id y = true → has_id m = true.
Proof.
  intros [->|H]; [done|]. intros _.
  by destruct (same_item_names m y (local_url "") H).
Qed.

Lemma kept_or_new_all_have_id (mid new : list item) :
  Forall2 (kept_or_new same_item) mid new →
  Forall (λ y, has_id y = true) new → Forall (λ y, has_id y = true) mid.
Proof.
  induction 1 as [|m y mid new Hmy _ IH]; [done|].
  intros Hn. apply Forall_cons in Hn as [Hy Hn].
  constructor; [by eapply kept_or_new_has_id|by apply IH].
Qed.

(** When the page's window is the stored slice [win], the merge rewrites
    that slice and leaves the items before and after it as they are. *)
Lemma applyDiffOrderedCollection_window (cid pid : option URL)
    (pre win post new : list item) :
  ∃ mid,
    applyDiffOrderedCollection
      (ASOrderedCollection cid (Some (pre ++ win ++ post)))
      (ASOrderedCollectionPage pid (length pre) (length win) (Some new))
    = ASOrderedCollection cid (Some (pre ++ mid ++ post)) ∧
    Forall2 (kept_or_new same_item) mid new.
Proof.
  unfold applyDiffOrderedCollection. simpl default.
  rewrite take_app_length, drop_app_length, take_app_length.
  destruct (apply_edit_diff same_item win new post) as (mid & Hm & HF).
  exists mid. by rewrite Hm.
Qed.

(** An element of the page is found in the merged collection when the
    elements before it, in the collection and in the page, have
    identifiers. *)
Lemma InboxContains_loop_merged (u : URL) (x : item)
    (pre mid post new : list item) :
  Forall2 (kept_or_new same_item) mid new →
  Forall (λ y, has_id y = true) pre →
  Forall (λ y, has_id y = true) new →
  x ∈ new → names u x = true →
  InboxContains_loop u (pre ++ mid ++ post) = (true, None).
Proof.
  intros HF Hpre Hnew Hx Hu.
  apply list_elem_of_split in Hx as (n1 & n2 & ->).
  apply Forall2_app_inv_r in HF as (m1 & m' & HF1 & HF2 & ->).
  apply Forall2_cons_inv_r in HF2 as (m & m2 & Hm & _ & ->).
  apply Forall_app in Hnew as [Hn1 _].
  replace (pre ++ (m1 ++ m :: m2) ++ post)
    with ((pre ++ m1) ++ m :: (m2 ++ post))
    by (by rewrite <- !app_assoc).
  apply InboxContains_loop_found.
  - apply Forall_app. split; [done|]. by eapply kept_or_new_all_have_id.
  - by rewrite (kept_or_new_names m x u Hm).
Qed.

(** C3.  Let the collection stored at [inboxIRI], under its own identifier,
    hold [pre ++ win ++ post] and let a page over the window [win] come
    back with the items [new].
    [SetInbox] succeeds and stores, at the same identifier, the collection
    [pre ++ mid ++ post]: [pre] and [post] as they were, and between them
    one element for each element of [new], in the order of [new] (the
    page's element, or the stored one with the same identifier).  No other
    entry changes, and [InboxContains] is then true of every element of
    the page, provided the elements of [pre] and [new] have identifiers. *)
Theorem SetInbox_merges_page (s : Mem) (inboxIRI cid : URL)
    (con : DBContent) (pid : option URL) (pre win post new : list item) :
  content (db s) !! URL_String inboxIRI = Some con →
  data con = ASOrderedCollection (Some cid) (Some (pre ++ win ++ post)) →
  URL_String cid = URL_String inboxIRI →
  ∃ s' mid,
    SetInbox inboxIRI
      (ASOrderedCollectionPage pid (length pre) (length win) (Some new)) s
    = Returns None s' ∧
    Forall2 (kept_or_new same_item) mid new ∧
    Get inboxIRI s' =
      Returns (Some (ASOrderedCollection (Some cid)
                       (Some (pre ++ mid ++ post))), None) s' ∧
    (∀ k, k ≠ URL_String inboxIRI →
          content (db s') !! k = content (db s) !! k) ∧
    (Forall (λ y, has_id y = true) pre →
     Forall (λ y, has_id y = true) new →
     ∀ x u, x ∈ new → pub_ToId x = Ok u →
            InboxContains inboxIRI u s' = Returns (true, None) s').
Proof.
  intros Hc Hd Hk.
  destruct (applyDiffOrderedCollection_window (Some cid) pid pre win post new)
    as (mid & Hm & HF).
  eexists. exists mid. split; [|split; [exact HF|]].
  - unfold SetInbox, getOrderedCollection, bind, content_Load, SyncMap.Load.
    rewrite Hc, Hd. cbn -[applyDiffOrderedCollection]. rewrite Hm.
    unfold saveToContent, Update.
    by apply Create_with_id.
  - split; [|split].
    + unfold Get, bind, content_Load, SyncMap.Load, SyncMap.Store. simpl.
      by rewrite Hk, lookup_insert_eq.
    + intros k Hne. simpl. unfold SyncMap.Store.
      rewrite lookup_insert_ne; [done|congruence].
    + intros Hpre Hnew x u Hx Hu.
      erewrite InboxContains_stored;
        [|simpl; unfold SyncMap.Store; rewrite Hk; apply lookup_insert_eq
         |reflexivity].
      f_equal. eapply InboxContains_loop_merged; eauto.
      unfold names. rewrite Hu. apply String.eqb_refl.
Qed.

Lemma abcde_mem_reached : Create abcde fresh_mem = Returns None abcde_mem.
Proof. vm_compute. reflexivity. Qed.

(** The spec's removal example: the page over [b, c] sent back as [b]
    leaves [a, b, d, e]. *)
Lemma SetInbox_removes_c :
  ∃ s', SetInbox inbox_url page_b abcde_mem = Returns None s' ∧
        Get inbox_url s' =
          Returns (Some (ASOrderedCollection (Some inbox_url)
                           (Some [iri "/a"; iri "/b"; iri "/d"; iri "/e"])),
                   None) s' ∧
        InboxContains inbox_url (local_url "/c") s' = Returns (false, None) s'.
Proof. eexists. repeat split; vm_compute; reflexivity. Qed.

Lemma SetInbox_merges_page_witness :
  InboxContains inbox_url (local_url "/x") abcde_mem =
    Returns (false, None) abcde_mem ∧
  ∃ s', SetInbox inbox_url page_bxc abcde_mem = Returns None s' ∧
        Get inbox_url s' =
          Returns (Some (ASOrderedCollection (Some inbox_url)
                           (Some [iri "/a"; iri "/b"; iri "/x"; iri "/c";
                                  iri "/d"; iri "/e"])), None) s' ∧
        InboxContains inbox_url (local_url "/x") s' = Returns (true, None) s'.
Proof.
  split; [vm_compute; reflexivity|].
  destruct (SetInbox_merges_page abcde_mem inbox_url inbox_url
              {| data := abcde; isLocal := true |} None
              [iri "/a"] [iri "/b"; iri "/c"] [iri "/d"; iri "/e"]
              [iri "/b"; iri "/x"; iri "/c"])
    as (s' & mid & Hs & _ & _ & _ & Hx); [reflexivity..|].
  exists s'. split; [exact Hs|]. split.
  - change (SetInbox inbox_url page_bxc abcde_mem = Returns None s') in Hs.
    vm_compute in Hs. injection Hs as <-. vm_compute. reflexivity.
  - apply (Hx ltac:(repeat constructor) ltac:(repeat constructor)
              (iri "/x")); [|reflexivity].
    apply list_elem_of_In. simpl. tauto.
Defined.

(** ** The race for the first lock entry *)

(** What one action of a goroutine can do to the registry. *)
Lemma step_goroutine_cases (g g' : goroutine) (s s' : Mem) :
  step_goroutine g s = (g', s') →
  g_id g' = g_id g ∧
  ((g' = g ∧ s' = s) ∨
   (locks (db s') = locks (db s) ∧ installed (g_pc g') = false ∧
    (target (g_pc g') = None ∨ target (g_pc g') = target (g_pc g))) ∨
   (∃ mu, locks (db s) !! key g = None ∧
          locks (db s') = <[key g := mu]> (locks (db s)) ∧
          g_pc g' = Returned mu false) ∨
   (∃ i, locks (db s) !! key g = Some i ∧
         locks (db s') = locks (db s) ∧
         g_pc g' = AtLockExisting i)).
Proof.
  unfold step_goroutine. destruct g as [id p]. simpl.
  destruct p as [|mu|mu|mu|mu loaded].
  - intros [= <- <-]. split; [done|]. right; left. simpl. auto.
  - unfold Mutex_Lock. destruct (mutexes s !! mu) as [[|]|].
    + intros [= <- <-]. auto.
    + intros [= <- <-]. split; [done|]. right; left. simpl. auto.
    + intros [= <- <-]. auto.
  - unfold locks_LoadOrStore, SyncMap.LoadOrStore, key. simpl.
    destruct (locks (db s) !! URL_String id) as [i|] eqn:Hl.
    + intros [= <- <-]. split; [done|]. right; right; right. by exists i.
    + intros [= <- <-]. split; [done|]. right; right; left. by exists mu.
  - unfold Mutex_Lock. destruct (mutexes s !! mu) as [[|]|].
    + intros [= <- <-]. auto.
    + intros [= <- <-]. split; [done|]. right; left. simpl. auto.
    + intros [= <- <-]. auto.
  - intros [= <- <-]. auto.
Qed.

Lemma installed_target (p : pc) :
  installed p = true → ∃ mu, target p = Some mu.
Proof. destruct p as [| | | |mu []]; try done. by exists mu. Qed.

Lemma step_registry_mono (k : string) (n : nat) (σ : System)
    (mu : mutexRef) :
  registry σ !! k = Some mu → registry (step n σ) !! k = Some mu.
Proof.
  unfold step, registry. intros H.
  destruct (goroutines σ !! n) as [g|]; [|done].
  destruct (step_goroutine g (mem σ)) as [g' s'] eqn:Hs. simpl.
  apply step_goroutine_cases in Hs
    as (_ & [[_ ->]|[(-> & _)|[(m & Hn & -> & _)|(i & _ & -> & _)]]]);
    try done.
  rewrite lookup_insert_ne; [done|]. intros <-. congruence.
Qed.


Lemma step_one_mutex (k : string) (n : nat) (σ : System) :
  one_mutex k σ → one_mutex k (step n σ).
Proof.
  intros [I1 I2]. unfold step.
  destruct (goroutines σ !! n) as [g|] eqn:Hn; [|done].
  destruct (step_goroutine g (mem σ)) as [g' s'] eqn:Hs.
  pose proof (step_registry_mono k n σ) as Hmono.
  unfold step in Hmono. rewrite Hn, Hs in Hmono.
  apply step_goroutine_cases in Hs as (Hid & Hcases).
  assert (Hkey : key g' = key g) by (unfold key; by rewrite Hid).
  (* the goroutine at [n] after the step, when it names [k] *)
  assert (Hnew : ∀ mu, key g' = k → target (g_pc g') = Some mu →
                       locks (db s') !! k = Some mu).
  { intros mu Hk Ht. rewrite Hkey in Hk.
    destruct Hcases
      as [[-> ->]|[(Hl & _ & Htg)|[(m & Hnone & Hl & Hp)|(i & Hsome & Hl & Hp)]]].
    - by apply (I1 n g).
    - rewrite Hl. destruct Htg as [Htg|Htg]; [congruence|].
      rewrite Htg in Ht. by apply (I1 n g).
    - rewrite Hl, Hp in *. simpl in Ht. injection Ht as ->.
      rewrite Hk. apply lookup_insert_eq.
    - rewrite Hl, Hp in *. simpl in Ht. injection Ht as ->. by rewrite <- Hk. }
  (* a goroutine that installs at this step is the first for [k] *)
  assert (Hfirst : ∀ j gj, key g' = k → installed (g_pc g') = true →
                           goroutines σ !! j = Some gj → key gj = k →
                           installed (g_pc gj) = true → n = j).
  { intros j gj Hk Hi Hj Hkj Hij. rewrite Hkey in Hk.
    destruct Hcases
      as [[-> ->]|[(_ & Hni & _)|[(m & Hnone & _ & _)|(i & _ & _ & Hp)]]].
    - by apply (I2 n j g gj).
    - congruence.
    - apply installed_target in Hij as [mj Hmj].
      pose proof (I1 j gj mj Hj Hkj Hmj) as Hreg.
      unfold registry in Hreg. congruence.
    - rewrite Hp in Hi. done. }
  split.
  - intros i gi mu Hi Hk Ht. unfold registry. simpl in *.
    apply list_lookup_insert_Some in Hi as [(<- & <- & _)|[Hne Hi]].
    + by apply Hnew.
    + apply Hmono. by apply (I1 i gi).
  - intros i j gi gj Hi Hj Hki Hkj Hii Hij. simpl in *.
    apply list_lookup_insert_Some in Hi as [(<- & <- & _)|[Hnei Hi]];
      apply list_lookup_insert_Some in Hj as [(<- & <- & _)|[Hnej Hj]].
    + done.
    + by apply (Hfirst j gj).
    + symmetry. by apply (Hfirst i gi).
    + by apply (I2 i j gi gj).
Qed.

Lemma step_entry_has_installer (k : string) (n : nat) (σ : System) :
  entry_has_installer k σ → entry_has_installer k (step n σ).
Proof.
  intros I3 Hsome. unfold step in *.
  destruct (goroutines σ !! n) as [g|] eqn:Hn; [|by apply I3].
  destruct (step_goroutine g (mem σ)) as [g' s'] eqn:Hs.
  pose proof Hs as Hs0.
  apply step_goroutine_cases in Hs as (Hid & Hcases).
  assert (Hlt : n < length (goroutines σ)) by (by eapply lookup_lt_Some).
  unfold registry in Hsome. simpl in *.
  assert (Hold : is_Some (registry σ !! k) →
                 ∃ i g0, <[n:=g']> (goroutines σ) !! i = Some g0 ∧
                         key g0 = k ∧ installed (g_pc g0) = true).
  { intros H. destruct (I3 H) as (i & g0 & Hi & Hk & Hinst).
    exists i, g0. split; [|done].
    destruct (decide (n = i)) as [<-|Hne].
    - assert (g0 = g) as -> by congruence.
      assert (g' = g) as ->.
      { unfold step_goroutine in Hs0. destruct (g_pc g) as [| | | |m l];
          try done. by injection Hs0 as <- _. }
      by rewrite list_lookup_insert_eq.
    - by rewrite list_lookup_insert_ne. }
  destruct Hcases
    as [[-> ->]|[(Hl & _)|[(m & Hnone & Hl & Hp)|(i & _ & Hl & _)]]].
  - by apply Hold.
  - apply Hold. unfold registry. by rewrite <- Hl.
  - destruct (decide (key g = k)) as [Hk|Hk].
    + exists n, g'. rewrite list_lookup_insert_eq by done.
      split; [done|]. split; [unfold key in *; by rewrite Hid|].
      by rewrite Hp.
    + apply Hold. unfold registry. rewrite Hl in Hsome.
      by rewrite lookup_insert_ne in Hsome.
  - apply Hold. unfold registry. by rewrite <- Hl.
Qed.

Lemma exec_invariants (k : string) (sched : list nat) (σ : System) :
  one_mutex k σ → entry_has_installer k σ →
  one_mutex k (exec sched σ) ∧ entry_has_installer k (exec sched σ).
Proof.
  revert σ. induction sched as [|n sched IH]; intros σ H1 H3; [done|].
  simpl. apply IH; [by apply step_one_mutex|by apply step_entry_has_installer].
Qed.

(** No action of [Lock] unlocks a mutex, and a goroutine that comes to
    hold one has just locked it. *)
Lemma step_goroutine_mutexes (g g' : goroutine) (s s' : Mem) :
  step_goroutine g s = (g', s') →
  (∀ mu, mutexes s !! mu = Some true → mutexes s' !! mu = Some true) ∧
  (∀ mu, holds (g_pc g') = Some mu →
         holds (g_pc g) = Some mu ∨ mutexes s' !! mu = Some true).
Proof.
  assert (Hlock : ∀ m (h : list bool), h !! m = Some false →
            (∀ mu, h !! mu = Some true → <[m:=true]> h !! mu = Some true) ∧
            <[m:=true]> h !! m = Some true).
  { intros m h Hm. apply lookup_lt_Some in Hm as Hlt. split.
    - intros mu Hmu. rewrite list_lookup_insert_ne; [done|congruence].
    - by apply list_lookup_insert_eq. }
  unfold step_goroutine. destruct g as [id p]. simpl.
  destruct p as [|mu0|mu0|mu0|mu0 loaded].
  - intros [= <- <-]. simpl. split; [|done].
    intros mu Hmu. by apply lookup_app_l_Some.
  - unfold Mutex_Lock. destruct (mutexes s !! mu0) as [[|]|] eqn:Hm;
      intros [= <- <-]; simpl; try (split; [done|]; intros ?; auto).
    destruct (Hlock _ _ Hm) as [H1 H2]. split; [done|].
    intros mu [= <-]. by right.
  - unfold locks_LoadOrStore, SyncMap.LoadOrStore.
    destruct (locks (db s) !! URL_String id); intros [= <- <-]; simpl;
      (split; [done|]); [done|]. intros mu [= <-]. by left.
  - unfold Mutex_Lock. destruct (mutexes s !! mu0) as [[|]|] eqn:Hm;
      intros [= <- <-]; simpl; try (split; [done|]; intros ?; auto).
    destruct (Hlock _ _ Hm) as [H1 H2]. split; [done|].
    intros mu [= <-]. by right.
  - intros [= <- <-]. simpl. split; [done|]. intros ?; auto.
Qed.

Lemma step_held_locked (n : nat) (σ : System) :
  held_locked σ → held_locked (step n σ).
Proof.
  intros H. unfold step.
  destruct (goroutines σ !! n) as [g|] eqn:Hn; [|done].
  destruct (step_goroutine g (mem σ)) as [g' s'] eqn:Hs.
  apply step_goroutine_mutexes in Hs as [Hmono Hnew].
  intros i gi mu Hi Hh. simpl in *.
  apply list_lookup_insert_Some in Hi as [(<- & <- & _)|[Hne Hi]].
  - destruct (Hnew mu Hh) as [Hold|?]; [|done].
    apply Hmono. by apply (H n g).
  - apply Hmono. by apply (H i gi).
Qed.

Lemma exec_held_locked (sched : list nat) (σ : System) :
  held_locked σ → held_locked (exec sched σ).
Proof.
  revert σ. induction sched as [|n sched IH]; intros σ H; [done|].
  simpl. apply IH. by apply step_held_locked.
Qed.



Lemma step_alone (g g' : goroutine) (s s' : Mem) :
  step_goroutine g s = (g', s') →
  step 0 {| mem := s; goroutines := [g] |} =
    {| mem := s'; goroutines := [g'] |}.
Proof. intros H. unfold step. simpl. by rewrite H. Qed.

Lemma Mutex_Lock_new (s : Mem) :
  Mutex_Lock (length (mutexes s)) (with_mutexes (mutexes s ++ [false]) s)
  = Returns tt
      (with_mutexes (<[length (mutexes s) := true]> (mutexes s ++ [false]))
         (with_mutexes (mutexes s ++ [false]) s)).
Proof.
  unfold Mutex_Lock. cbn [mutexes with_mutexes].
  by rewrite list_lookup_middle.
Qed.

(** Scheduled alone, a goroutine goes through [Lock] in four actions and
    leaves the memory that the call [Lock id] returns in; when the call
    parks, so does the goroutine. *)
Lemma Lock_alone (id : URL) (s : Mem) :
  let σ := exec [0; 0; 0; 0]
             {| mem := s;
                goroutines := [{| g_id := id; g_pc := AtNewMutex |}] |} in
  match Lock id s with
  | Returns _ s' =>
      mem σ = s' ∧
      ∃ mu l, goroutines σ = [{| g_id := id; g_pc := Returned mu l |}]
  | Blocks =>
      ∃ mu, goroutines σ = [{| g_id := id; g_pc := AtLockExisting mu |}]
  | _ => True
  end.
Proof.
  unfold exec. simpl fold_left.
  set (mu := length (mutexes s)).
  set (s1 := with_mutexes (mutexes s ++ [false]) s).
  set (s2 := with_mutexes (<[mu := true]> (mutexes s ++ [false])) s1).
  rewrite (step_alone _ {| g_id := id; g_pc := AtOptimisticLock mu |} s s1)
    by reflexivity.
  rewrite (step_alone _ {| g_id := id; g_pc := AtLoadOrStore mu |} s1 s2)
    by (unfold step_goroutine; cbn [g_pc]; subst mu s1;
        by rewrite Mutex_Lock_new).
  unfold Lock, bind. cbn [new_Mutex]. fold mu s1.
  subst mu s1. rewrite Mutex_Lock_new. fold s2.
  set (mu := length (mutexes s)) in *.
  unfold locks_LoadOrStore, SyncMap.LoadOrStore.
  destruct (locks (db s2) !! URL_String id) as [i|] eqn:Hl.
  - rewrite (step_alone _ {| g_id := id; g_pc := AtLockExisting i |} s2
               (with_locks (locks (db s2)) s2))
      by (unfold step_goroutine, locks_LoadOrStore, SyncMap.LoadOrStore;
          cbn [g_pc g_id]; by rewrite Hl).
    destruct (Mutex_Lock i (with_locks (locks (db s2)) s2))
      as [[] s3| | |] eqn:Hm; [|done| |done].
    + rewrite (step_alone _ {| g_id := id; g_pc := Returned i true |} _ s3)
        by (unfold step_goroutine; cbn [g_pc]; by rewrite Hm).
      simpl. eauto.
    + rewrite (step_alone _ {| g_id := id; g_pc := AtLockExisting i |} _
                 (with_locks (locks (db s2)) s2))
        by (unfold step_goroutine; cbn [g_pc]; by rewrite Hm).
      simpl. eauto.
  - rewrite (step_alone _ {| g_id := id; g_pc := Returned mu false |} s2
               (with_locks (<[URL_String id := mu]> (locks (db s2))) s2))
      by (unfold step_goroutine, locks_LoadOrStore, SyncMap.LoadOrStore;
          cbn [g_pc g_id]; by rewrite Hl).
    rewrite (step_alone _ {| g_id := id; g_pc := Returned mu false |} _
               (with_locks (<[URL_String id := mu]> (locks (db s2))) s2))
      by reflexivity.
    simpl. eauto.
Qed.


Lemma Create_fails_iff_no_id_witness :
  ∃ err s', Create (ASObject "Note" None) fresh_mem = Returns err s' ∧
            err ≠ None ∧ s' = fresh_mem.
Proof.
  destruct (Create_fails_iff_no_id fresh_mem (ASObject "Note" None))
    as (err & s' & H & _ & Hiff & Hs).
  exists err, s'. split; [exact H|].
  assert (err ≠ None) by (apply Hiff; reflexivity). auto.
Defined.

(** * Further properties of the methods *)

(** ** Lock, called alone *)

Lemma Lock_after_new (id : URL) (s : Mem) :
  Lock id s =
    (let* (i, loaded) :=
       locks_LoadOrStore (URL_String id) (length (mutexes s)) in
     run (if loaded then Mutex_Lock i else ret tt) then ret None)
      (with_mutexes (mutexes s ++ [true]) s).
Proof.
  unfold Lock, bind at 1 2. cbn [new_Mutex]. rewrite Mutex_Lock_new.
  cbn [with_mutexes db mutexes].
  rewrite insert_app_r_alt, Nat.sub_diag by done. reflexivity.
Qed.

Lemma Lock_absent_eq (id : URL) (s : Mem) :
  locks (db s) !! URL_String id = None →
  Lock id s =
    Returns None
      (with_locks (<[URL_String id := length (mutexes s)]> (locks (db s)))
         (with_mutexes (mutexes s ++ [true]) s)).
Proof.
  intros H. rewrite Lock_after_new.
  unfold bind, locks_LoadOrStore, SyncMap.LoadOrStore.
  cbn [with_mutexes db locks]. by rewrite H.
Qed.

Lemma Lock_free_eq (id : URL) (s : Mem) (i : nat) :
  locks (db s) !! URL_String id = Some i → mutexes s !! i = Some false →
  Lock id s =
    Returns None
      (with_mutexes (<[i := true]> (mutexes s) ++ [true])
         (with_locks (locks (db s)) s)).
Proof.
  intros H Hi. rewrite Lock_after_new.
  unfold bind, locks_LoadOrStore, SyncMap.LoadOrStore.
  cbn [with_mutexes db locks]. rewrite H.
  unfold Mutex_Lock. cbn [with_locks with_mutexes mutexes db].
  rewrite (lookup_app_l_Some _ _ _ _ Hi).
  rewrite insert_app_l by (by eapply lookup_lt_Some). reflexivity.
Qed.

Lemma Lock_held_eq (id : URL) (s : Mem) (i : nat) :
  locks (db s) !! URL_String id = Some i → mutexes s !! i = Some true →
  Lock id s = Blocks.
Proof.
  intros H Hi. rewrite Lock_after_new.
  unfold bind, locks_LoadOrStore, SyncMap.LoadOrStore.
  cbn [with_mutexes db locks]. rewrite H.
  unfold Mutex_Lock. cbn [with_locks with_mutexes mutexes db].
  by rewrite (lookup_app_l_Some _ _ _ _ Hi).
Qed.

(** X1.  [Lock] on an identifier that has no entry in the registry never
    waits, whatever mutexes are locked: it returns nil, the registry gains
    the one entry for the identifier, a new mutex that is now locked, and
    the content table, the host name, the other entries and the other
    mutexes are as before. *)
Theorem Lock_installs_when_absent (s : Mem) (id : URL) :
  locks (db s) !! URL_String id = None →
  ∃ s', Lock id s = Returns None s' ∧
        locks (db s') =
          <[URL_String id := length (mutexes s)]> (locks (db s)) ∧
        mutexes s' = mutexes s ++ [true] ∧
        content (db s') = content (db s) ∧
        hostname (db s') = hostname (db s).
Proof. intros H. eexists. split; [by apply Lock_absent_eq|]. done. Qed.

Lemma Lock_installs_when_absent_witness :
  ∃ s', Lock inbox_url fresh_mem = Returns None s' ∧
        locks (db s') !! "https://localhost/inbox" = Some 0 ∧
        mutexes s' = [true].
Proof.
  destruct (Lock_installs_when_absent fresh_mem inbox_url)
    as (s' & Hs & Hl & Hm & _); [reflexivity|].
  exists s'. split; [exact Hs|]. split; [|exact Hm].
  rewrite Hl. apply lookup_insert_eq.
Defined.



(** After a [Lock] that returned, the identifier has an entry and its
    mutex is locked. *)
Lemma Lock_returned_holds (s s1 : Mem) (id : URL) (e : error) :
  Lock id s = Returns e s1 →
  e = None ∧
  ∃ i, locks (db s1) !! URL_String id = Some i ∧
       mutexes s1 !! i = Some true.
Proof.
  intros H.
  destruct (locks (db s) !! URL_String id) as [i|] eqn:Hl.
  - destruct (mutexes s !! i) as [[|]|] eqn:Hi.
    + rewrite (Lock_held_eq id s i Hl Hi) in H. done.
    + rewrite (Lock_free_eq id s i Hl Hi) in H. injection H as <- <-.
      split; [done|]. exists i. split; [done|]. simpl.
      apply lookup_app_l_Some, list_lookup_insert_eq.
      by eapply lookup_lt_Some.
    + rewrite Lock_after_new in H.
      unfold bind, locks_LoadOrStore, SyncMap.LoadOrStore in H.
      cbn [with_mutexes db locks] in H. rewrite Hl in H.
      unfold Mutex_Lock in H. cbn [with_locks with_mutexes mutexes db] in H.
      destruct (decide (i = length (mutexes s))) as [->|Hne].
      * rewrite list_lookup_middle in H by done. done.
      * rewrite lookup_app_l in H.
        { by rewrite Hi in H. }
        apply lookup_ge_None in Hi.
        destruct ((mutexes s ++ [true]) !! i) eqn:Hx; [|done].
        apply lookup_lt_Some in Hx. rewrite length_app in Hx. simpl in Hx. lia.
  - rewrite (Lock_absent_eq id s Hl) in H. injection H as <- <-.
    split; [done|]. exists (length (mutexes s)). simpl.
    split; [apply lookup_insert_eq|by apply list_lookup_middle].
Qed.

Lemma Unlock_by_entry (s : Mem) (id : URL) (i : nat) :
  locks (db s) !! URL_String id = Some i → mutexes s !! i = Some true →
  ∃ s', Unlock id s = Returns None s' ∧
        locks (db s') = locks (db s) ∧
        content (db s') = content (db s) ∧
        mutexes s' = <[i := false]> (mutexes s).
Proof.
  intros Hl Hi. eexists.
  unfold Unlock, bind, locks_Load, SyncMap.Load, Mutex_Unlock.
  rewrite Hl, Hi. done.
Qed.

(** X3.  [Lock] is not reentrant, and [Unlock] gives the lock back: after
    a [Lock] that returned, a second [Lock] on the identifier waits, while
    [Unlock] returns nil, frees the registered mutex without touching the
    registry, and a [Lock] after it returns again. *)
Theorem Lock_then_Unlock (s s1 : Mem) (id : URL) (e : error) :
  Lock id s = Returns e s1 →
  Lock id s1 = Blocks ∧
  ∃ i s2, locks (db s1) !! URL_String id = Some i ∧
          Unlock id s1 = Returns None s2 ∧
          locks (db s2) = locks (db s1) ∧
          content (db s2) = content (db s1) ∧
          mutexes s2 = <[i := false]> (mutexes s1) ∧
          ∃ s3, Lock id s2 = Returns None s3.
Proof.
  intros H. destruct (Lock_returned_holds _ _ _ _ H) as (_ & i & Hl & Hi).
  split; [by eapply Lock_held_eq|].
  destruct (Unlock_by_entry s1 id i Hl Hi) as (s2 & Hu & Hl2 & Hc2 & Hm2).
  exists i, s2. repeat split; try done.
  assert (Hf : mutexes s2 !! i = Some false).
  { rewrite Hm2. apply list_lookup_insert_eq. by eapply lookup_lt_Some. }
  eexists. eapply Lock_free_eq; [by rewrite Hl2|done].
Qed.

Lemma Lock_then_Unlock_witness :
  Lock inbox_url held_mem = Blocks ∧
  Unlock inbox_url held_mem = Returns None released_mem ∧
  ∃ s3, Lock inbox_url released_mem = Returns None s3.
Proof.
  destruct (Lock_then_Unlock fresh_mem held_mem inbox_url None
              held_mem_reached)
    as (Hb & i & s2 & Hi & Hu & _ & _ & _ & s3 & H3).
  split; [exact Hb|].
  assert (Hs2 : s2 = released_mem).
  { change (Unlock inbox_url held_mem) with (Returns (A:=error) None released_mem)
      in Hu. by injection Hu. }
  rewrite Hs2 in *. split; [exact Hu|]. by exists s3.
Defined.

(** ** Mutual exclusion *)

(** A goroutine comes to hold a mutex only by locking one that was free. *)
Lemma step_goroutine_acquires (g g' : goroutine) (s s' : Mem) (mu : nat) :
  step_goroutine g s = (g', s') → holds (g_pc g') = Some mu →
  holds (g_pc g) = Some mu ∨ mutexes s !! mu = Some false.
Proof.
  unfold step_goroutine. destruct g as [id p]. simpl.
  destruct p as [|mu0|mu0|mu0|mu0 loaded].
  - by intros [= <- <-].
  - unfold Mutex_Lock. destruct (mutexes s !! mu0) as [[|]|] eqn:Hm;
      intros [= <- <-]; simpl; try done. intros [= <-]. by right.
  - unfold locks_LoadOrStore, SyncMap.LoadOrStore.
    destruct (locks (db s) !! URL_String id); intros [= <- <-]; simpl;
      [done|]. intros [= <-]. by left.
  - unfold Mutex_Lock. destruct (mutexes s !! mu0) as [[|]|] eqn:Hm;
      intros [= <- <-]; simpl; try done. intros [= <-]. by right.
  - intros [= <- <-]. simpl. by left.
Qed.

Lemma step_sole_holders (n : nat) (σ : System) :
  held_locked σ → sole_holders σ → sole_holders (step n σ).
Proof.
  intros HL HS. unfold step.
  destruct (goroutines σ !! n) as [g|] eqn:Hn; [|done].
  destruct (step_goroutine g (mem σ)) as [g' s'] eqn:Hs.
  assert (Hnew : ∀ j gj mu, holds (g_pc g') = Some mu →
                   goroutines σ !! j = Some gj →
                   holds (g_pc gj) = Some mu → n = j).
  { intros j gj mu Hg' Hj Hgj.
    destruct (step_goroutine_acquires _ _ _ _ _ Hs Hg') as [Hg|Hfree].
    - by apply (HS n j g gj mu).
    - pose proof (HL j gj mu Hj Hgj). congruence. }
  intros i j gi gj mu Hi Hj Hgi Hgj. simpl in *.
  apply list_lookup_insert_Some in Hi as [(<- & <- & _)|[Hnei Hi]];
    apply list_lookup_insert_Some in Hj as [(<- & <- & _)|[Hnej Hj]].
  - done.
  - by apply (Hnew j gj mu).
  - symmetry. by apply (Hnew i gi mu).
  - by apply (HS i j gi gj mu).
Qed.

Lemma exec_sole_holders (sched : list nat) (σ : System) :
  held_locked σ → sole_holders σ → sole_holders (exec sched σ).
Proof.
  revert σ. induction sched as [|n sched IH]; intros σ HL HS; [done|].
  simpl. apply IH; [by apply step_held_locked|by apply step_sole_holders].
Qed.

Lemma exec_one_mutex (k : string) (sched : list nat) (σ : System) :
  one_mutex k σ → one_mutex k (exec sched σ).
Proof.
  revert σ. induction sched as [|n sched IH]; intros σ H; [done|].
  simpl. apply IH. by apply step_one_mutex.
Qed.

(** X4.  Goroutines enter [Lock], for any identifiers, and none calls
    [Unlock].  Whatever the scheduler does, no mutex is ever held by two
    of them, and of the goroutines that called [Lock] with the same
    identifier at most one has returned. *)
Theorem Lock_mutual_exclusion (σ0 : System) (sched : list nat) :
  (∀ g, g ∈ goroutines σ0 → g_pc g = AtNewMutex) →
  let σ := exec sched σ0 in
  (∀ i j gi gj mu, goroutines σ !! i = Some gi → goroutines σ !! j = Some gj →
                   holds (g_pc gi) = Some mu → holds (g_pc gj) = Some mu →
                   i = j) ∧
  (∀ i j gi gj mi li mj lj,
      goroutines σ !! i = Some gi → goroutines σ !! j = Some gj →
      key gi = key gj →
      g_pc gi = Returned mi li → g_pc gj = Returned mj lj → i = j).
Proof.
  intros Hstart σ.
  assert (Hpc : ∀ i g, goroutines σ0 !! i = Some g → g_pc g = AtNewMutex).
  { intros i g Hi. apply Hstart. by eapply list_elem_of_lookup_2. }
  assert (HS : sole_holders σ).
  { apply exec_sole_holders.
    - intros i g mu Hi Hh. by rewrite (Hpc i g Hi) in Hh.
    - intros i j gi gj mu Hi _ Hh. by rewrite (Hpc i gi Hi) in Hh. }
  split; [exact HS|].
  intros i j gi gj mi li mj lj Hi Hj Hk Hpi Hpj.
  assert (I : one_mutex (key gi) σ).
  { apply exec_one_mutex. split.
    - intros i' g mu Hi' _ Ht. by rewrite (Hpc i' g Hi') in Ht.
    - intros i' j' gi' gj' Hi' _ _ _ Hinst.
      by rewrite (Hpc i' gi' Hi') in Hinst. }
  destruct I as [I1 _].
  assert (Hmi : registry σ !! key gi = Some mi)
    by (apply (I1 i gi); [done..|by rewrite Hpi]).
  assert (Hmj : registry σ !! key gi = Some mj)
    by (apply (I1 j gj); [done..|by rewrite Hpj]).
  assert (mi = mj) as -> by congruence.
  apply (HS i j gi gj mj); [done..|by rewrite Hpi|by rewrite Hpj].
Qed.

(** Three callers for the inbox: one has returned, two wait. *)
Lemma Lock_mutual_exclusion_witness :
  map g_pc (goroutines (exec race racers)) =
    [AtLockExisting 1; Returned 1 false; AtLockExisting 1] ∧
  ∀ i j gi gj mi li mj lj,
    goroutines (exec race racers) !! i = Some gi →
    goroutines (exec race racers) !! j = Some gj →
    key gi = key gj →
    g_pc gi = Returned mi li → g_pc gj = Returned mj lj → i = j.
Proof.
  split; [vm_compute; reflexivity|].
  destruct (Lock_mutual_exclusion racers race) as [_ H].
  - intros g Hg. apply list_elem_of_In in Hg. simpl in Hg.
    destruct Hg as [<-|[<-|[<-|[]]]]; reflexivity.
  - exact H.
Defined.

(** ** The content table *)

(** X5.  [Exists] never returns an error, and it agrees with [Get]: it is
    true exactly when [Get] returns a document, and false exactly when
    [Get] returns nothing with the error "Get failed". *)
Theorem Exists_agrees_with_Get (s : Mem) (id : URL) :
  ∃ b, Exists id s = Returns (b, None) s ∧
       (b = true ↔ ∃ doc, Get id s = Returns (Some doc, None) s) ∧
       (b = false ↔ Get id s = Returns (None, Some "Get failed") s).
Proof.
  unfold Exists, Get, bind, content_Load, SyncMap.Load.
  destruct (content (db s) !! URL_String id) as [con|]; eexists;
    (split; [reflexivity|]); simpl; split; split; try done.
  - intros _. by eexists.
  - intros [doc H]. done.
Qed.

(** X6.  [Create] of a document with an identifier writes one key: for
    every identifier with another string form [Exists] and [Get] answer
    as before, and the lock registry and the mutexes are not touched. *)
Theorem Create_leaves_other_entries (s : Mem) (doc : vocabType) (id : URL) :
  pub_GetId doc = Ok id →
  ∃ s', Create doc s = Returns None s' ∧
        locks (db s') = locks (db s) ∧ mutexes s' = mutexes s ∧
        ∀ id' r, URL_String id' ≠ URL_String id →
                 (Get id' s = Returns r s → Get id' s' = Returns r s') ∧
                 (∀ b, Exists id' s = Returns b s →
                       Exists id' s' = Returns b s').
Proof.
  intros H. eexists. split; [by apply Create_with_id|].
  split; [done|]. split; [done|]. intros id' r Hne.
  unfold Get, Exists, bind, content_Load, SyncMap.Load, SyncMap.Store.
  simpl. rewrite lookup_insert_ne by done.
  split.
  - destruct (content (db s) !! URL_String id'); by intros [= <-].
  - intros b. destruct (content (db s) !! URL_String id'); by intros [= <-].
Qed.

Lemma Create_leaves_other_entries_witness :
  ∃ s', Create (note "/notes/2") abcde_mem = Returns None s' ∧
        Get inbox_url s' = Returns (Some abcde, None) s'.
Proof.
  destruct (Create_leaves_other_entries abcde_mem (note "/notes/2")
              (local_url "/notes/2") eq_refl) as (s' & Hs & _ & _ & H).
  exists s'. split; [exact Hs|].
  apply (H inbox_url (Some abcde, None)); [|reflexivity].
  vm_compute. discriminate.
Defined.

(** X7.  The last write wins.  When two documents have identifiers with
    the same string form, [Create] of the first and then [Update] (or
    [Create]) of the second ends in the memory that the second call alone
    ends in, and [Get] returns the second document. *)
Theorem Update_after_Create_overwrites (s : Mem) (d1 d2 : vocabType)
    (id1 id2 : URL) :
  pub_GetId d1 = Ok id1 → pub_GetId d2 = Ok id2 →
  URL_String id1 = URL_String id2 →
  (run Create d1 then Update d2) s = Update d2 s ∧
  (run Create d1 then Create d2) s = Create d2 s ∧
  ∃ s', Update d2 s = Returns None s' ∧
        Get id1 s' = Returns (Some d2, None) s'.
Proof.
  intros H1 H2 Hk.
  assert (Hcc : (run Create d1 then Create d2) s = Create d2 s).
  { unfold bind at 1. rewrite (Create_with_id d1 id1 s H1).
    rewrite !(Create_with_id d2 id2 _ H2). f_equal.
    unfold with_content, SyncMap.Store. simpl. rewrite Hk.
    by rewrite insert_insert_eq. }
  split; [exact Hcc|]. split; [exact Hcc|].
  eexists. split; [unfold Update; by apply Create_with_id|].
  unfold Get, bind, content_Load, SyncMap.Load, SyncMap.Store. simpl.
  by rewrite Hk, lookup_insert_eq.
Qed.

Lemma Update_after_Create_overwrites_witness :
  (run Create (ASObject "Note" (Some (local_url "/n")))
   then Update (ASObject "Article" (Some (local_url "/n")))) fresh_mem
  = Update (ASObject "Article" (Some (local_url "/n"))) fresh_mem.
Proof.
  apply (Update_after_Create_overwrites fresh_mem
           (ASObject "Note" (Some (local_url "/n")))
           (ASObject "Article" (Some (local_url "/n")))
           (local_url "/n") (local_url "/n")); reflexivity.
Defined.

(** X8.  After [Create] of a document with an identifier, [Exists] on the
    identifier is true, and the entry is marked local exactly when [Owns]
    said so of the identifier when [Create] was called. *)
Theorem Create_then_Exists_and_locality (s : Mem) (doc : vocabType)
    (id : URL) :
  pub_GetId doc = Ok id →
  ∃ s' owns,
    Create doc s = Returns None s' ∧
    Exists id s' = Returns (true, None) s' ∧
    Owns id s = Returns (owns, None) s ∧
    content (db s') !! URL_String id =
      Some {| data := doc; isLocal := owns |}.
Proof.
  intros H. eexists. eexists. split; [by apply Create_with_id|].
  unfold Exists, bind, content_Load, SyncMap.Load, SyncMap.Store. simpl.
  rewrite lookup_insert_eq. split; [done|]. split; [apply Owns_eq|done].
Qed.

Lemma Create_then_Exists_and_locality_witness :
  ∃ s', Create (ASObject "Note" (Some OTHER_users_x)) other_example
          = Returns None s' ∧
        Exists OTHER_users_x s' = Returns (true, None) s' ∧
        isLocal <$> content (db s') !! "https://OTHER.example/users/x"
          = Some false.
Proof.
  destruct (Create_then_Exists_and_locality other_example
              (ASObject "Note" (Some OTHER_users_x)) OTHER_users_x eq_refl)
    as (s' & owns & Hs & He & Ho & Hc).
  exists s'. split; [exact Hs|]. split; [exact He|].
  change (URL_String OTHER_users_x) with "https://OTHER.example/users/x"
    in Hc.
  rewrite Hc. simpl. rewrite Owns_eq in Ho. by injection Ho as <-.
Defined.

Lemma InboxContains_loop_same_string (id id' : URL) (oi : list item) :
  URL_String id = URL_String id' →
  InboxContains_loop id oi = InboxContains_loop id' oi.
Proof.
  intros H. induction oi as [|x oi IH]; [done|].
  simpl. rewrite H, IH. done.
Qed.

(** X9.  Every method but [Owns] reads an identifier through its string
    form only: two identifiers with the same string name the same lock,
    the same entry and the same item. *)
Theorem same_string_same_key (s : Mem) (id id' x : URL) :
  URL_String id = URL_String id' →
  Lock id s = Lock id' s ∧
  Unlock id s = Unlock id' s ∧
  Exists id s = Exists id' s ∧
  Get id s = Get id' s ∧
  InboxContains id x s = InboxContains id' x s ∧
  InboxContains x id s = InboxContains x id' s.
Proof.
  intros H.
  unfold Lock, Unlock, Exists, Get, InboxContains, getOrderedCollection.
  rewrite H. repeat split.
  unfold bind, content_Load.
  destruct (SyncMap.Load (URL_String x) (content (db s))) as [con|];
    [|done].
  destruct (data con) as [| c [oi|] |]; try done.
  simpl. by rewrite (InboxContains_loop_same_string id id' oi H).
Qed.

Lemma same_string_same_key_witness :
  URL_String inbox_url_bare = "https://localhost/inbox" ∧
  Get inbox_url_bare abcde_mem = Returns (Some abcde, None) abcde_mem ∧
  Lock inbox_url_bare held_mem = Blocks.
Proof.
  destruct (same_string_same_key abcde_mem inbox_url_bare inbox_url
              inbox_url eq_refl) as (_ & _ & _ & Hg & _).
  destruct (same_string_same_key held_mem inbox_url_bare inbox_url
              inbox_url eq_refl) as (Hl & _).
  split; [reflexivity|]. split.
  - rewrite Hg. reflexivity.
  - rewrite Hl. reflexivity.
Defined.

Lemma InboxContains_loop_true_no_error (id : URL) (oi : list item) :
  fst (InboxContains_loop id oi) = true →
  snd (InboxContains_loop id oi) = None.
Proof.
  induction oi as [|x oi IH]; [done|].
  rewrite InboxContains_loop_cons.
  destruct (names id x); [done|]. by destruct (pub_ToId x).
Qed.

(** X10.  [InboxContains] never answers true together with an error: on
    every memory and for every pair of identifiers it returns, and when
    its answer is true its error is nil. *)
Theorem InboxContains_true_without_error (s : Mem) (inbox id : URL) :
  ∃ contains err,
    InboxContains inbox id s = Returns (contains, err) s ∧
    (contains = true → err = None).
Proof.
  unfold InboxContains, getOrderedCollection, bind, content_Load.
  destruct (SyncMap.Load (URL_String inbox) (content (db s))) as [con|].
  - destruct (data con) as [| c [oi|] |]; simpl; try (by do 2 eexists).
    destruct (InboxContains_loop id oi) as [b e] eqn:Hb.
    exists b, e. split; [done|]. intros ->.
    pose proof (InboxContains_loop_true_no_error id oi) as H.
    rewrite Hb in H. by apply H.
  - by do 2 eexists.
Qed.

(** X11.  The database [Construct] builds from two empty maps, as the root
    command does, has nothing in it whatever the host name: for every
    identifier [Exists] is false, [Get] fails, [Unlock] reports the missing
    entry, and [Lock] returns at once with the first mutex. *)
Theorem constructed_db_is_empty (h : string) (id : URL) :
  let s := {| db := Construct ∅ ∅ h; mutexes := [] |} in
  Exists id s = Returns (false, None) s ∧
  Get id s = Returns (None, Some "Get failed") s ∧
  Unlock id s = Returns (Some "Missing an id in Unlock") s ∧
  Lock id s =
    Returns None
      {| db := Construct ∅ {[ URL_String id := 0 ]} h; mutexes := [true] |}.
Proof.
  intros s. split; [reflexivity|]. split; [reflexivity|].
  split; [reflexivity|].
  rewrite Lock_absent_eq by apply lookup_empty. reflexivity.
Qed.

(** ** Followers *)

(** X12.  [Followers] answers from the content table.  When the actor's
    [followers] property names an identifier, the result is the ordered
    collection stored under that identifier, also when the property embeds
    a collection of its own; when nothing is stored there the call fails.
    The memory is the one [getPerson] left. *)
Theorem Followers_reads_the_store
    (getPerson : URL → M (result ActivityStreamsPerson))
    (actorIRI : URL) (s s1 : Mem) (person : ActivityStreamsPerson)
    (f : item) (fid : URL) :
  getPerson actorIRI s = Returns (Ok person) s1 →
  person_followers person = Some f →
  pub_ToId f = Ok fid →
  (∀ con cid oi,
      content (db s1) !! URL_String fid = Some con →
      data con = ASOrderedCollection cid oi →
      Followers getPerson actorIRI s =
        Returns (Some (ASOrderedCollection cid oi), None) s1) ∧
  (content (db s1) !! URL_String fid = None →
   ∃ e, Followers getPerson actorIRI s = Returns (None, Some e) s1).
Proof.
  intros Hp Hf Hid.
  unfold Followers, bind, GetActivityStreamsFollowers.
  rewrite Hp, Hf, Hid.
  unfold getOrderedCollection, bind, content_Load, SyncMap.Load.
  split.
  - intros con cid oi Hc Hd. by rewrite Hc, Hd.
  - intros Hc. rewrite Hc. by eexists.
Qed.

Lemma Followers_reads_the_store_witness :
  GetActivityStreamsOrderedItems embedded_followers = None ∧
  Followers getPerson_a (local_url "/users/a") followers_mem =
    Returns (Some stored_followers, None) followers_mem.
Proof.
  split; [reflexivity|].
  destruct (Followers_reads_the_store getPerson_a (local_url "/users/a")
              followers_mem followers_mem person_a
              (ItemType embedded_followers) followers_url
              eq_refl eq_refl eq_refl) as [H _].
  apply (H {| data := stored_followers; isLocal := true |}
           (Some followers_url) (Some [iri "/users/b"])); reflexivity.
Defined.

(** X13.  [Followers] gives back a collection or an error, never both and
    never neither, and writes nothing: it ends in the memory [getPerson]
    left.  It passes on the error of [getPerson], and an actor without a
    [followers] property gets "no followers collection". *)
Theorem Followers_collection_or_error
    (getPerson : URL → M (result ActivityStreamsPerson))
    (actorIRI : URL) (s s1 : Mem) (r : result ActivityStreamsPerson) :
  getPerson actorIRI s = Returns r s1 →
  ∃ c e,
    Followers getPerson actorIRI s = Returns (c, e) s1 ∧
    (c = None ↔ e ≠ None) ∧
    (∀ msg, r = Err msg → c = None ∧ e = Some msg) ∧
    (∀ person, r = Ok person → person_followers person = None →
               c = None ∧ e = Some "no followers collection").
Proof.
  intros Hp. unfold Followers, bind, GetActivityStreamsFollowers.
  rewrite Hp. destruct r as [person|msg].
  - destruct (person_followers person) as [f|] eqn:Hf.
    + assert (Hlast : ∀ (c : option vocabType) (e : error) person0,
                Ok person = Ok person0 → person_followers person0 = None →
                c = None ∧ e = Some "no followers collection")
        by (intros c e p0 [= <-] H0; congruence).
      destruct (pub_ToId f) as [fid|e'].
      * destruct (read_only_getOrderedCollection fid s1) as [oc Hoc].
        rewrite Hoc.
        destruct oc as [c|e']; do 2 eexists; (split; [reflexivity|]);
          (split; [split; intros; first [done|congruence]|]);
          (split; [done|apply Hlast]).
      * do 2 eexists. split; [reflexivity|].
        split; [done|]. split; [done|apply Hlast].
    + do 2 eexists. split; [reflexivity|]. repeat split; done.
  - do 2 eexists. split; [reflexivity|].
    split; [done|]. split; [|done]. by intros ? [= ->].
Qed.

Lemma Followers_collection_or_error_witness :
  Followers getPerson_a (local_url "/users/z") followers_mem =
    Returns (None, Some "getPerson: not found") followers_mem.
Proof.
  destruct (Followers_collection_or_error getPerson_a (local_url "/users/z")
              followers_mem followers_mem (Err "getPerson: not found")
              eq_refl) as (c & e & H & _ & He & _).
  destruct (He _ eq_refl) as [-> ->]. exact H.
Defined.

(** ** The registry and its mutexes *)

(** X14.  An entry is never seen unlocked by the goroutines that race to
    make it: when they enter [Lock] with no entry for [k] in the registry,
    then in every state they reach the mutex registered under [k] is
    locked.  The mutex is locked before [LoadOrStore] publishes it. *)
Theorem Lock_entry_born_locked (σ0 : System) (k : string)
    (sched : list nat) (mu : nat) :
  (∀ g, g ∈ goroutines σ0 → g_pc g = AtNewMutex) →
  registry σ0 !! k = None →
  registry (exec sched σ0) !! k = Some mu →
  mutexes (mem (exec sched σ0)) !! mu = Some true.
Proof.
  intros Hstart Hnone Hreg.
  assert (Hpc : ∀ i g, goroutines σ0 !! i = Some g → g_pc g = AtNewMutex).
  { intros i g Hi. apply Hstart. by eapply list_elem_of_lookup_2. }
  destruct (exec_invariants k sched σ0) as [[I1 _] I3].
  - split.
    + intros i g m Hi _ Ht. by rewrite (Hpc i g Hi) in Ht.
    + intros i j gi gj Hi _ _ _ Hinst. by rewrite (Hpc i gi Hi) in Hinst.
  - intros [m Hm]. congruence.
  - destruct I3 as (j & gj & Hj & Hkj & Hinst); [by eexists|].
    destruct (g_pc gj) as [| | | |mj []] eqn:Hpj; try done.
    assert (registry (exec sched σ0) !! k = Some mj)
      by (apply (I1 j gj); [done..|by rewrite Hpj]).
    assert (mj = mu) as -> by congruence.
    apply (exec_held_locked sched σ0) with (i := j) (g := gj).
    + intros i g m Hi Hh. by rewrite (Hpc i g Hi) in Hh.
    + done.
    + by rewrite Hpj.
Qed.

Lemma Lock_entry_born_locked_witness :
  mutexes (mem (exec race racers)) !! 1 = Some true.
Proof.
  apply (Lock_entry_born_locked racers "https://localhost/inbox" race 1).
  - intros g Hg. apply list_elem_of_In in Hg. simpl in Hg.
    destruct Hg as [<-|[<-|[<-|[]]]]; reflexivity.
  - reflexivity.
  - vm_compute. reflexivity.
Defined.

Lemma registry_wf_Lock (s s' : Mem) (id : URL) (e : error) :
  registry_wf s → Lock id s = Returns e s' → registry_wf s'.
Proof.
  intros [Hb Hi] H.
  destruct (locks (db s) !! URL_String id) as [i|] eqn:Hl.
  - destruct (mutexes s !! i) as [[|]|] eqn:Hm.
    + by rewrite (Lock_held_eq id s i Hl Hm) in H.
    + rewrite (Lock_free_eq id s i Hl Hm) in H. injection H as <- <-.
      split; simpl.
      * intros k j Hk. rewrite length_app, length_insert. simpl.
        pose proof (Hb k j Hk). lia.
      * exact Hi.
    + apply lookup_ge_None in Hm. pose proof (Hb _ _ Hl). lia.
  - rewrite (Lock_absent_eq id s Hl) in H. injection H as <- <-.
    split; simpl.
    + intros k j Hk. rewrite length_app. simpl.
      apply lookup_insert_Some in Hk as [[_ <-]|[_ Hk]]; [lia|].
      pose proof (Hb k j Hk). lia.
    + intros k k' j Hk Hk'.
      apply lookup_insert_Some in Hk as [[<- <-]|[Hne Hk]];
        apply lookup_insert_Some in Hk' as [[<- Hj]|[Hne' Hk']]; try done.
      * pose proof (Hb k' _ Hk'). lia.
      * pose proof (Hb k _ Hk). lia.
      * by eapply Hi.
Qed.

Lemma registry_wf_Unlock (s s' : Mem) (id : URL) (e : error) :
  registry_wf s → Unlock id s = Returns e s' → registry_wf s'.
Proof.
  intros [Hb Hi]. unfold Unlock, bind, locks_Load, SyncMap.Load, Mutex_Unlock.
  destruct (locks (db s) !! URL_String id) as [i|]; [|by intros [= <- <-]].
  destruct (mutexes s !! i) as [[|]|]; try done.
  intros [= <- <-]. split; simpl; [|done].
  intros k j Hk. rewrite length_insert. by eapply Hb.
Qed.

Lemma registry_wf_Create (s s' : Mem) (doc : vocabType) (e : error) :
  registry_wf s → Create doc s = Returns e s' → registry_wf s'.
Proof.
  intros Hwf. destruct (pub_GetId doc) as [id|msg] eqn:Hid.
  - rewrite (Create_with_id doc id s Hid). by intros [= <- <-].
  - rewrite (Create_without_id doc msg s Hid). by intros [= <- <-].
Qed.

(** X15.  The registry stays well formed: the constructed database with
    its empty registry is, and from a memory where every entry points at an
    existing mutex and no two entries share a mutex, every [Lock],
    [Unlock], [Create] and [Update] that returns leaves such a memory.  In
    such a memory [Lock] returns or waits and never faults. *)
Theorem registry_stays_well_formed (s : Mem) (id : URL) (doc : vocabType) :
  (∀ h, registry_wf {| db := Construct ∅ ∅ h; mutexes := [] |}) ∧
  (registry_wf s →
   (∀ e s', Lock id s = Returns e s' → registry_wf s') ∧
   (∀ e s', Unlock id s = Returns e s' → registry_wf s') ∧
   (∀ e s', Create doc s = Returns e s' → registry_wf s') ∧
   (∀ e s', Update doc s = Returns e s' → registry_wf s') ∧
   ((∃ s', Lock id s = Returns None s') ∨ Lock id s = Blocks)).
Proof.
  split.
  - intros h. split; simpl; intros k; intros; by rewrite lookup_empty in *.
  - intros Hwf. split; [|split; [|split; [|split]]].
    + intros e s'. by apply registry_wf_Lock.
    + intros e s'. by apply registry_wf_Unlock.
    + intros e s'. by apply registry_wf_Create.
    + intros e s'. unfold Update. by apply registry_wf_Create.
    + destruct (locks (db s) !! URL_String id) as [i|] eqn:Hl.
      * destruct (mutexes s !! i) as [[|]|] eqn:Hm.
        -- right. by eapply Lock_held_eq.
        -- left. eexists. by eapply Lock_free_eq.
        -- apply lookup_ge_None in Hm. destruct Hwf as [Hb _].
           pose proof (Hb _ _ Hl). lia.
      * left. eexists. by apply Lock_absent_eq.
Qed.

Lemma registry_stays_well_formed_witness :
  registry_wf held_mem ∧ registry_wf released_mem.
Proof.
  destruct (registry_stays_well_formed fresh_mem inbox_url abcde)
    as [H0 H1].
  destruct (H1 (H0 "localhost")) as (HL & _).
  pose proof (HL None held_mem held_mem_reached) as Hheld.
  split; [exact Hheld|].
  destruct (registry_stays_well_formed held_mem inbox_url abcde)
    as [_ H2].
  destruct (H2 Hheld) as (_ & HU & _).
  apply (HU None). reflexivity.
Defined.

(** X16.  Locks of different identifiers do not stand in each other's way.
    In a well-formed memory, after a [Lock] on one identifier has returned,
    [Lock] on an identifier with another string form waits exactly when it
    would have waited before. *)
Theorem Lock_independent_of_other_ids (s s1 : Mem) (id1 id2 : URL)
    (e : error) :
  registry_wf s →
  URL_String id1 ≠ URL_String id2 →
  Lock id1 s = Returns e s1 →
  (Lock id2 s1 = Blocks ↔ Lock id2 s = Blocks) ∧
  ((∃ s', Lock id2 s1 = Returns None s') ↔
   (∃ s', Lock id2 s = Returns None s')).
Proof.
  intros Hwf Hne H1.
  pose proof (registry_wf_Lock s s1 id1 e Hwf H1) as Hwf1.
  assert (Hsame : locks (db s1) !! URL_String id2
                  = locks (db s) !! URL_String id2 ∧
                  ∀ i, locks (db s) !! URL_String id2 = Some i →
                       mutexes s1 !! i = mutexes s !! i).
  { destruct Hwf as [Hb Hi].
    destruct (locks (db s) !! URL_String id1) as [i1|] eqn:Hl.
    - destruct (mutexes s !! i1) as [[|]|] eqn:Hm.
      + by rewrite (Lock_held_eq id1 s i1 Hl Hm) in H1.
      + rewrite (Lock_free_eq id1 s i1 Hl Hm) in H1. injection H1 as <- <-.
        split; [done|]. intros i Hl2. simpl.
        pose proof (Hb _ _ Hl2).
        rewrite lookup_app_l by (by rewrite length_insert).
        apply list_lookup_insert_ne. intros ->.
        apply Hne. by eapply Hi.
      + apply lookup_ge_None in Hm. pose proof (Hb _ _ Hl). lia.
    - rewrite (Lock_absent_eq id1 s Hl) in H1. injection H1 as <- <-.
      split; simpl.
      + by apply lookup_insert_ne.
      + intros i Hl2. pose proof (Hb _ _ Hl2). by apply lookup_app_l. }
  destruct Hsame as [Hreg Hmu].
  destruct (locks (db s) !! URL_String id2) as [i|] eqn:Hl2.
  - specialize (Hmu i eq_refl).
    destruct (mutexes s !! i) as [[|]|] eqn:Hm.
    + rewrite (Lock_held_eq id2 s i Hl2 Hm).
      rewrite (Lock_held_eq id2 s1 i Hreg Hmu). split; split; try done.
    + rewrite (Lock_free_eq id2 s i Hl2 Hm).
      rewrite (Lock_free_eq id2 s1 i Hreg Hmu).
      split; split; try done; intros _; by eexists.
    + apply lookup_ge_None in Hm. destruct Hwf as [Hb _].
      pose proof (Hb _ _ Hl2). lia.
  - rewrite (Lock_absent_eq id2 s Hl2), (Lock_absent_eq id2 s1 Hreg).
    split; split; try done; intros _; by eexists.
Qed.

Lemma Lock_independent_of_other_ids_witness :
  ∃ s', Lock (local_url "/outbox") held_mem = Returns None s'.
Proof.
  destruct (Lock_independent_of_other_ids fresh_mem held_mem inbox_url
              (local_url "/outbox") None) as [_ [_ H]].
  - split; simpl; intros k; intros; by rewrite lookup_empty in *.
  - vm_compute. discriminate.
  - exact held_mem_reached.
  - apply H. eexists. apply Lock_absent_eq. reflexivity.
Defined.
